(** * Payroll pay-computation engine ([main.py]): model and verified properties

    The development follows the source bottom-up:
    - [Decimal]: the fragment of Python's [decimal] arithmetic the program
      uses, under the default context (28 significant digits,
      [ROUND_HALF_EVEN], traps on [InvalidOperation] and [DivisionByZero]);
    - [to_decimal], [TAX_SLABS], [income_tax_annually]: the rounding helper
      and the progressive tax loop;
    - [compute_pay]: the pay pipeline, over an explicit database state
      (the [employees] and [payslips] tables) threaded through a small
      state-and-exception monad.

    Conventions of the model.  A [Decimal] is a finite number
    [coef * 10 ^ exp]; the sign is carried by [coef], so the two zeros of
    Python's [Decimal] ([0] and [-0]) are identified, and infinities and
    NaNs are not represented: a field read from a [REAL] column is the
    finite decimal numeral that [str] prints for it, and
    [Decimal(str(d))] of a [Decimal] [d] is [d] itself.  The exponent
    limits [Emin]/[Emax] of the context (|exponent| near 10^6) are not
    modelled; the precision limit is. *)

From Stdlib Require Import ZArith List Lia Bool String.
Import ListNotations.
Local Open Scope Z_scope.

(** ** Exceptions and results *)

Inductive exn : Type :=
| ValueError (msg : string)
| InvalidOperation
| DivisionByZero.

Inductive result (A : Type) : Type :=
| Ok (a : A)
| Raise (e : exn).

Arguments Ok {A} a.
Arguments Raise {A} e.

Definition bind {A B : Type} (r : result A) (k : A -> result B) : result B :=
  match r with
  | Ok a => k a
  | Raise e => Raise e
  end.

Declare Scope result_scope.
Delimit Scope result_scope with result.
Notation "'let?' x ':=' r 'in' k" := (bind r (fun x => k))
  (at level 10, x name, r at level 100, k at level 200) : result_scope.
Local Open Scope result_scope.

(** ** Python's [decimal] arithmetic under the default context *)

Module Decimal.

Record dec : Type := mkdec { coef : Z; exp : Z }.

(** [getcontext().prec] *)
Definition prec : Z := 28.

Inductive rounding : Type := ROUND_HALF_UP | ROUND_HALF_EVEN.

(** [len(self._int)]: the number of decimal digits of the coefficient
    (1 for zero). *)
Fixpoint ndigits_fuel (fuel : nat) (n : Z) : Z :=
  match fuel with
  | O => 1
  | S f => if n <? 10 then 1 else 1 + ndigits_fuel f (n / 10)
  end.

Definition ndigits (n : Z) : Z :=
  ndigits_fuel (Z.to_nat (Z.log2 (Z.abs n))) (Z.abs n).

(** [self.adjusted()]: the exponent of the most significant digit. *)
Definition adjusted (d : dec) : Z := exp d + ndigits (coef d) - 1.

(** The rounding functions [_round_half_up] and [_round_half_even] on a
    magnitude [m]: drop the [s] low digits ([0 < s]) and say what the
    kept digits become. *)
Definition round_mag (mode : rounding) (m s : Z) : Z :=
  let p := 10 ^ s in
  let q := m / p in
  let r := m mod p in
  match mode with
  | ROUND_HALF_UP => if p <=? 2 * r then q + 1 else q
  | ROUND_HALF_EVEN =>
      if p <? 2 * r then q + 1
      else if (p =? 2 * r) && Z.odd q then q + 1
      else q
  end.

(** [Decimal._rescale(exp, rounding)] *)
Definition _rescale (d : dec) (e : Z) (mode : rounding) : dec :=
  if coef d =? 0 then mkdec 0 e
  else if e <=? exp d then mkdec (coef d * 10 ^ (exp d - e)) e
  else mkdec (Z.sgn (coef d) * round_mag mode (Z.abs (coef d)) (e - exp d)) e.

(** [Decimal._fix(context)]: round to [prec] significant digits with the
    context rounding, [ROUND_HALF_EVEN]. *)
Definition _fix (d : dec) : dec :=
  let n := ndigits (coef d) in
  if n <=? prec then d
  else
    let s := n - prec in
    let q := round_mag ROUND_HALF_EVEN (Z.abs (coef d)) s in
    if prec <? ndigits q
    then mkdec (Z.sgn (coef d) * (q / 10)) (exp d + s + 1)
    else mkdec (Z.sgn (coef d) * q) (exp d + s).

(** [__add__], [__sub__], [__mul__] *)
Definition add (a b : dec) : dec :=
  let e := Z.min (exp a) (exp b) in
  _fix (mkdec (coef a * 10 ^ (exp a - e) + coef b * 10 ^ (exp b - e)) e).

Definition copy_negate (a : dec) : dec := mkdec (- coef a) (exp a).

Definition sub (a b : dec) : dec := add a (copy_negate b).

Definition mul (a b : dec) : dec :=
  _fix (mkdec (coef a * coef b) (exp a + exp b)).

(** The loop of [__truediv__] that brings an exact quotient as close to
    the ideal exponent as trailing zeros allow. *)
Fixpoint strip_zeros (fuel : nat) (c e ideal : Z) : Z * Z :=
  match fuel with
  | O => (c, e)
  | S f =>
      if (e <? ideal) && (c mod 10 =? 0)
      then strip_zeros f (c / 10) (e + 1) ideal
      else (c, e)
  end.

(** [__truediv__] *)
Definition div (a b : dec) : result dec :=
  if coef b =? 0 then
    (if coef a =? 0 then Raise InvalidOperation else Raise DivisionByZero)
  else if coef a =? 0 then Ok (_fix (mkdec 0 (exp a - exp b)))
  else
    let sign := Z.sgn (coef a) * Z.sgn (coef b) in
    let shift := ndigits (coef b) - ndigits (coef a) + prec + 1 in
    let e := exp a - exp b - shift in
    let '(c, r) :=
      if 0 <=? shift
      then Z.div_eucl (Z.abs (coef a) * 10 ^ shift) (Z.abs (coef b))
      else Z.div_eucl (Z.abs (coef a)) (Z.abs (coef b) * 10 ^ (- shift)) in
    let '(c', e') :=
      if r =? 0 then strip_zeros (Z.to_nat shift) c e (exp a - exp b)
      else ((if c mod 5 =? 0 then c + 1 else c), e) in
    Ok (_fix (mkdec (sign * c') e')).

(** Numerical comparison ([_cmp]) and the rich comparisons built on it. *)
Definition cmp (a b : dec) : comparison :=
  let e := Z.min (exp a) (exp b) in
  (coef a * 10 ^ (exp a - e)) ?= (coef b * 10 ^ (exp b - e)).

Definition ltb (a b : dec) : bool :=
  match cmp a b with Lt => true | _ => false end.

Definition leb (a b : dec) : bool :=
  match cmp a b with Gt => false | _ => true end.

Definition eqb (a b : dec) : bool :=
  match cmp a b with Eq => true | _ => false end.

(** The builtins [min(a, b)] and [max(a, b)]: the first argument unless
    the second is strictly smaller (larger). *)
Definition min (a b : dec) : dec := if ltb b a then b else a.
Definition max (a b : dec) : dec := if ltb a b then b else a.

(** [self.quantize(q, rounding)]: the value at the exponent of [q];
    [InvalidOperation] when the result needs more than [prec] digits. *)
Definition quantize (d q : dec) (mode : rounding) : result dec :=
  if coef d =? 0 then Ok (_fix (mkdec 0 (exp q)))
  else if prec <? adjusted d - exp q + 1 then Raise InvalidOperation
  else
    let ans := _rescale d (exp q) mode in
    if prec <? ndigits (coef ans) then Raise InvalidOperation
    else Ok (_fix ans).

(** [Decimal(n)] for an integer literal, and [Decimal('c E e')]. *)
Definition of_Z (n : Z) : dec := mkdec n 0.

End Decimal.

Import Decimal.

(** ** The rounding helper *)

(** [Decimal('0.01')] *)
Definition cent : dec := mkdec 1 (-2).

(** [to_decimal(x)]: [x] stands for the decimal numeral [str(x)]. *)
Definition to_decimal (x : dec) : result dec :=
  quantize x cent ROUND_HALF_UP.

(** [d.quantize(Decimal('0.01'))] with no [rounding] argument: the
    rounding mode is the one of the context. *)
Definition context_rounding : rounding := ROUND_HALF_EVEN.

Definition quantize_cent (d : dec) : result dec :=
  quantize d cent context_rounding.

(** ** The progressive tax calculator *)

Definition PF_PERCENT : dec := mkdec 120 (-1).

Definition TAX_SLABS : list (dec * dec) :=
  [ (of_Z 250000,    mkdec 0 (-1));
    (of_Z 500000,    mkdec 5 (-2));
    (of_Z 1000000,   mkdec 2 (-1));
    (of_Z 999999999, mkdec 3 (-1)) ].

(** The [for limit, rate in TAX_SLABS] loop of [income_tax_annually],
    from any point of the iteration: [continue] skips to the next slab,
    [break] leaves with the tax accumulated so far. *)
Fixpoint tax_loop (slabs : list (dec * dec))
    (tax prev_limit taxable_income : dec) : dec :=
  match slabs with
  | [] => tax
  | (limit, rate) :: rest =>
      let slab_amount :=
        Decimal.min (sub limit prev_limit) (sub taxable_income prev_limit) in
      if leb slab_amount (of_Z 0) then
        tax_loop rest tax limit taxable_income
      else
        let tax := add tax (mul slab_amount rate) in
        if leb taxable_income limit then tax
        else tax_loop rest tax limit taxable_income
  end.

(** The value of [tax] when the loop is left, before the final rounding. *)
Definition accumulated_tax (taxable_income : dec) : dec :=
  tax_loop TAX_SLABS (of_Z 0) (of_Z 0) taxable_income.

Definition income_tax_annually (taxable_income : dec) : result dec :=
  to_decimal (accumulated_tax taxable_income).

(** ** The database *)

(** A row of [employees]; the four [REAL] columns are held as the decimal
    numerals [str] prints for them. *)
Record employee : Type := mkemployee {
  emp_id : Z;
  emp_code : string;
  emp_name : string;
  designation : string;
  basic : dec;
  hra_percent : dec;
  da_percent : dec;
  other_allowances : dec
}.

(** The dictionary [breakdown]; each entry [str(d)] is held as [d]. *)
Record breakdown : Type := mkbreakdown {
  b_basic : dec;
  b_hra : dec;
  b_da : dec;
  b_other_allowances : dec;
  b_gross_salary : dec;
  b_pf : dec;
  b_tax : dec;
  b_total_deductions : dec;
  b_net_salary : dec
}.

(** A row of [payslips]; the three [REAL] columns hold [float(d)] and are
    kept as the decimal [d] they are converted from. *)
Record payslip : Type := mkpayslip {
  ps_id : Z;
  ps_emp_id : Z;
  ps_month : string;
  ps_generated_on : string;
  ps_gross_salary : dec;
  ps_total_deductions : dec;
  ps_net_salary : dec;
  ps_breakdown : breakdown
}.

Record conn : Type := mkconn {
  employees : list employee;
  payslips : list payslip
}.

(** What [datetime.datetime.now()] is read for. *)
Record clock : Type := mkclock {
  now_year_month : string;   (* [now().strftime('%Y-%m')] *)
  now_isoformat : string     (* [now().isoformat()] *)
}.

(** Computations on the database that may raise: the state at the time of
    the exception is the state that remains. *)
Definition M (A : Type) : Type := conn -> result A * conn.

Definition mret {A : Type} (a : A) : M A := fun c => (Ok a, c).

Definition mbind {A B : Type} (m : M A) (k : A -> M B) : M B :=
  fun c =>
    match m c with
    | (Ok a, c') => k a c'
    | (Raise e, c') => (Raise e, c')
    end.

Definition raise {A : Type} (e : exn) : M A := fun c => (Raise e, c).

Definition lift {A : Type} (r : result A) : M A := fun c => (r, c).

Declare Scope db_scope.
Delimit Scope db_scope with db.
Notation "x <- m ;; k" := (mbind m (fun x => k))
  (at level 61, m at next level, right associativity) : db_scope.

(** [SELECT ... FROM employees WHERE emp_code = ?] followed by
    [fetchone()]. *)
Definition get_employee_by_code (emp_code0 : string) : M (option employee) :=
  fun c =>
    (Ok (find (fun r => String.eqb (emp_code r) emp_code0) (employees c)), c).

(** [INSERT INTO payslips (...) VALUES (...)] and [commit()]; the
    [AUTOINCREMENT] key of an append-only table is the row count plus one. *)
Definition insert_payslip (eid : Z) (month generated_on : string)
    (gross total_deductions net : dec) (b : breakdown) : M unit :=
  fun c =>
    let row := mkpayslip (Z.of_nat (List.length (payslips c)) + 1) eid month
                 generated_on gross total_deductions net b in
    (Ok tt, mkconn (employees c) (payslips c ++ [row])%list).

(** ** The pay computation *)

(** The local variables of [compute_pay] once the arithmetic is done. *)
Record pay_locals : Type := mkpay_locals {
  l_basic : dec;
  l_hra : dec;
  l_da : dec;
  l_other_allow : dec;
  l_gross : dec;
  l_pf : dec;
  l_annual_gross : dec;
  l_taxable_ann : dec;
  l_annual_tax : dec;
  l_monthly_tax : dec;
  l_total_deductions : dec;
  l_net : dec
}.

Definition standard_deduction : dec := of_Z 50000.

(** The arithmetic of [compute_pay], from [basic = to_decimal(basic)] to
    [net = ...], on the four amounts of the row. *)
Definition pay_amounts (basic0 hra_pct da_pct other_allow0 : dec)
  : result pay_locals :=
  let? basic := to_decimal basic0 in
  let? hra_pct' := to_decimal hra_pct in
  let? hra_q := div (mul basic hra_pct') (of_Z 100) in
  let? hra := quantize_cent hra_q in
  let? da_pct' := to_decimal da_pct in
  let? da_q := div (mul basic da_pct') (of_Z 100) in
  let? da := quantize_cent da_q in
  let? other_allow := to_decimal other_allow0 in
  let? gross := quantize_cent (add (add (add basic hra) da) other_allow) in
  let? pf_q := div (mul basic PF_PERCENT) (of_Z 100) in
  let? pf := quantize_cent pf_q in
  let annual_gross := mul gross (of_Z 12) in
  let taxable_ann :=
    Decimal.max (of_Z 0) (sub annual_gross standard_deduction) in
  let? annual_tax := income_tax_annually taxable_ann in
  let? monthly_q := div annual_tax (of_Z 12) in
  let? monthly_tax := quantize_cent monthly_q in
  let? total_deductions := quantize_cent (add pf monthly_tax) in
  let? net := quantize_cent (sub gross total_deductions) in
  Ok (mkpay_locals basic hra da other_allow gross pf annual_gross
        taxable_ann annual_tax monthly_tax total_deductions net).

Definition breakdown_of (l : pay_locals) : breakdown :=
  mkbreakdown (l_basic l) (l_hra l) (l_da l) (l_other_allow l) (l_gross l)
    (l_pf l) (l_monthly_tax l) (l_total_deductions l) (l_net l).

(** The dictionary [compute_pay] returns. *)
Record pay_result : Type := mkpay_result {
  r_emp_code : string;
  r_name : string;
  r_designation : string;
  r_month : string;
  r_breakdown : breakdown
}.

Local Open Scope db_scope.

Definition compute_pay (emp_code0 : string) (month : option string)
    (clk : clock) : M pay_result :=
  row <- get_employee_by_code emp_code0 ;;
  match row with
  | None => raise (ValueError "Employee not found")
  | Some r =>
      l <- lift (pay_amounts (basic r) (hra_percent r) (da_percent r)
                   (other_allowances r)) ;;
      let b := breakdown_of l in
      let month' :=
        match month with
        | None => now_year_month clk
        | Some m => m
        end in
      _ <- insert_payslip (emp_id r) month' (now_isoformat clk)
             (l_gross l) (l_total_deductions l) (l_net l) b ;;
      mret (mkpay_result (emp_code r) (emp_name r) (designation r) month' b)
  end.

Local Close Scope db_scope.

(** ** The tax calculator as the specification words it *)

(** The reference computation: the amount taxed at a slab's rate is
    [min(ceiling, taxable_income) - prev_limit]; an amount that is not
    positive adds nothing; otherwise [amount * rate] is added and the
    iteration stops once [taxable_income <= ceiling]. *)
Fixpoint spec_tax_loop (slabs : list (dec * dec))
    (total prev_limit taxable_income : dec) : dec :=
  match slabs with
  | [] => total
  | (ceiling, rate) :: rest =>
      let amount := sub (Decimal.min ceiling taxable_income) prev_limit in
      if leb amount (of_Z 0) then
        spec_tax_loop rest total ceiling taxable_income
      else
        let total := add total (mul amount rate) in
        if leb taxable_income ceiling then total
        else spec_tax_loop rest total ceiling taxable_income
  end.

(** The Rounding Utility of the specification, [round_money]: two
    fractional digits, ties away from zero. *)
Definition round_money (x : dec) : result dec :=
  quantize x (mkdec 1 (-2)) ROUND_HALF_UP.

(** [annual_tax(taxable_income, slabs)]: the accumulated total, rounded
    once at the end. *)
Definition annual_tax (taxable_income : dec) (slabs : list (dec * dec))
  : result dec :=
  round_money (spec_tax_loop slabs (of_Z 0) (of_Z 0) taxable_income).

(** The same computation with the stop test made at every slab, whether
    or not the slab added tax. *)
Fixpoint spec_tax_loop_eager (slabs : list (dec * dec))
    (total prev_limit taxable_income : dec) : dec :=
  match slabs with
  | [] => total
  | (ceiling, rate) :: rest =>
      let amount := sub (Decimal.min ceiling taxable_income) prev_limit in
      let total :=
        if leb amount (of_Z 0) then total
        else add total (mul amount rate) in
      if leb taxable_income ceiling then total
      else spec_tax_loop_eager rest total ceiling taxable_income
  end.

Definition annual_tax_eager (taxable_income : dec)
    (slabs : list (dec * dec)) : result dec :=
  round_money (spec_tax_loop_eager slabs (of_Z 0) (of_Z 0) taxable_income).

(** Slab tables whose ceilings are integers, strictly ascending from
    [prev], each of at most [prec - 2] digits. *)
Fixpoint ascending_from (prev : Z) (slabs : list (dec * dec)) : Prop :=
  match slabs with
  | [] => True
  | (limit, _) :: rest =>
      exp limit = 0 /\ prev < coef limit < 10 ^ (prec - 2) /\
      ascending_from (coef limit) rest
  end.

(** ** The invariant of a pay breakdown *)

(** The nine amounts are in cents (two fractional digits). *)
Definition in_cents (b : breakdown) : Prop :=
  exp (b_basic b) = -2 /\ exp (b_hra b) = -2 /\ exp (b_da b) = -2 /\
  exp (b_other_allowances b) = -2 /\ exp (b_gross_salary b) = -2 /\
  exp (b_pf b) = -2 /\ exp (b_tax b) = -2 /\
  exp (b_total_deductions b) = -2 /\ exp (b_net_salary b) = -2.

(** [gross_salary = basic + hra + da + other_allowances], to the cent. *)
Definition gross_is_sum (b : breakdown) : Prop :=
  coef (b_gross_salary b)
  = coef (b_basic b) + coef (b_hra b) + coef (b_da b)
    + coef (b_other_allowances b).

(** [total_deductions = pf + tax], to the cent. *)
Definition deductions_are_sum (b : breakdown) : Prop :=
  coef (b_total_deductions b) = coef (b_pf b) + coef (b_tax b).

(** [net_salary = gross_salary - total_deductions], to the cent. *)
Definition net_is_difference (b : breakdown) : Prop :=
  coef (b_net_salary b)
  = coef (b_gross_salary b) - coef (b_total_deductions b).

Definition breakdown_invariant (b : breakdown) : Prop :=
  in_cents b /\ gross_is_sum b /\ deductions_are_sum b /\
  net_is_difference b.

(** The partial sums [basic + hra] and [basic + hra + da] stay within the
    28 digits of the context (below 10^26 in magnitude). *)
Definition partial_sums_fit (b : breakdown) : Prop :=
  Z.abs (coef (b_basic b) + coef (b_hra b)) < 10 ^ prec /\
  Z.abs (coef (b_basic b) + coef (b_hra b) + coef (b_da b)) < 10 ^ prec.

(** ** Sample data *)

Definition sample_clock : clock :=
  mkclock "2024-05" "2024-05-17T10:30:00".

(** basic = 30000.0, hra_percent = 20.0, da_percent = 0.0, other = 0.0 *)
Definition emp_scenario : employee :=
  mkemployee 1 "E001" "Asha" "Engineer"
    (mkdec 300000 (-1)) (mkdec 200 (-1)) (mkdec 0 (-1)) (mkdec 0 (-1)).

(** basic = 0.0, hra_percent = 0.0, da_percent = 0.0, other = 0.0 *)
Definition emp_zero : employee :=
  mkemployee 2 "E002" "Bina" "Trainee"
    (mkdec 0 (-1)) (mkdec 0 (-1)) (mkdec 0 (-1)) (mkdec 0 (-1)).

(** basic = 10.0, hra_percent = 0.25, da_percent = 0.0, other = 0.0 *)
Definition emp_tie : employee :=
  mkemployee 3 "E003" "Chitra" "Clerk"
    (mkdec 100 (-1)) (mkdec 25 (-2)) (mkdec 0 (-1)) (mkdec 0 (-1)).

(** basic = 25000.1, hra_percent = 0.0, da_percent = 0.0, other = 0.0 *)
Definition emp_tax_tie : employee :=
  mkemployee 4 "E004" "Dev" "Analyst"
    (mkdec 250001 (-1)) (mkdec 0 (-1)) (mkdec 0 (-1)) (mkdec 0 (-1)).

(** basic = 77777777777777.77, hra_percent = da_percent =
    77777777777777.77, other = -9e+25 *)
Definition emp_huge : employee :=
  mkemployee 5 "E005" "Esha" "Director"
    (mkdec 7777777777777777 (-2)) (mkdec 7777777777777777 (-2))
    (mkdec 7777777777777777 (-2)) (mkdec (-9) 25).

Definition sample_conn : conn :=
  mkconn [emp_scenario; emp_zero; emp_tie; emp_tax_tie; emp_huge] [].

(** What the scenario of the specification gives for [emp_scenario]. *)
Definition scenario_locals : pay_locals :=
  mkpay_locals
    (mkdec 3000000 (-2)) (mkdec 600000 (-2)) (mkdec 0 (-2)) (mkdec 0 (-2))
    (mkdec 3600000 (-2)) (mkdec 360000 (-2)) (mkdec 43200000 (-2))
    (mkdec 38200000 (-2)) (mkdec 660000 (-2)) (mkdec 55000 (-2))
    (mkdec 415000 (-2)) (mkdec 3185000 (-2)).

Definition scenario_result : pay_result :=
  mkpay_result "E001" "Asha" "Engineer" "2024-05"
    (breakdown_of scenario_locals).

Definition scenario_conn : conn :=
  mkconn (employees sample_conn)
    [mkpayslip 1 1 "2024-05" "2024-05-17T10:30:00"
       (mkdec 3600000 (-2)) (mkdec 415000 (-2)) (mkdec 3185000 (-2))
       (breakdown_of scenario_locals)].

(** What the all-zero profile [emp_zero] gives. *)
Definition zero_locals : pay_locals :=
  mkpay_locals
    (mkdec 0 (-2)) (mkdec 0 (-2)) (mkdec 0 (-2)) (mkdec 0 (-2))
    (mkdec 0 (-2)) (mkdec 0 (-2)) (mkdec 0 (-2)) (of_Z 0)
    (mkdec 0 (-2)) (mkdec 0 (-2)) (mkdec 0 (-2)) (mkdec 0 (-2)).

(** ** Representations of one value *)

(** [a] is [b] written with [j] more trailing zeros. *)
Definition scaled (a b : dec) : Prop :=
  exists j, 0 <= j /\ coef a = coef b * 10 ^ j /\ exp a = exp b - j.

(** ** The annual tax in closed form *)

(** The annual tax on an income of [n] cents, in cents. *)
Definition tax_cents (n : Z) : Z :=
  if n <=? 25000000 then 0
  else if n <=? 50000000 then (5 * (n - 25000000) + 50) / 100
  else if n <=? 100000000 then (12500000 + 2 * (n - 50000000) + 5) / 10
  else if n <=? 99999999900 then (112500000 + 3 * (n - 100000000) + 5) / 10
  else 29981249970.

(** basic = 1e+26 *)
Definition emp_overflow : employee :=
  mkemployee 1 "E100" "Farah" "Owner"
    (mkdec 1 26) (mkdec 200 (-1)) (mkdec 0 (-1)) (mkdec 0 (-1)).

Definition overflow_conn : conn := mkconn [emp_overflow] [].

(** ** The employee directory *)

(** The database file: the two tables, and the counter SQLite keeps for
    the [AUTOINCREMENT] key of [employees] (its row of [sqlite_sequence]),
    the largest key given out so far. *)
Record database : Type := mkdatabase {
  tables : conn;
  employees_seq : Z
}.


(** [WHERE emp_code = ?] *)
Definition has_code (emp_code0 : string) (e : employee) : bool :=
  String.eqb (emp_code e) emp_code0.

(** The key an [INSERT] gives the new row of an [AUTOINCREMENT] table: one
    more than the largest key the table holds or ever held. *)
Definition next_employee_id (d : database) : Z :=
  Z.max (employees_seq d)
        (fold_right Z.max 0 (map emp_id (employees (tables d)))) + 1.

(** [add_employee]: the database afterwards and the lines printed.  The
    four amounts are the values [float(basic)], [float(hra_percent)],
    [float(da_percent)] and [float(other_allowances)]; the [UNIQUE]
    constraint on [emp_code] is what raises [IntegrityError]. *)
Definition add_employee (emp_code0 name0 designation0 : string)
    (basic0 hra_percent0 da_percent0 other_allowances0 : dec)
    (d : database) : database * list string :=
  if existsb (has_code emp_code0) (employees (tables d)) then
    (d, ["Error: emp_code must be unique."%string])
  else
    let id := next_employee_id d in
    let row := mkemployee id emp_code0 name0 designation0 basic0
                 hra_percent0 da_percent0 other_allowances0 in
    (mkdatabase (mkconn (employees (tables d) ++ [row])
                   (payslips (tables d))) id,
     ["Employee added."%string]).

(** The keyword arguments of [update_employee], over the six columns the
    menu passes; [None] is a key that is absent or whose value is
    [None]. *)
Record employee_patch : Type := mkemployee_patch {
  p_name : option string;
  p_designation : option string;
  p_basic : option dec;
  p_hra_percent : option dec;
  p_da_percent : option dec;
  p_other_allowances : option dec
}.

(** [not fields]: no keyword with a value. *)
Definition no_fields (k : employee_patch) : bool :=
  match p_name k, p_designation k, p_basic k, p_hra_percent k,
        p_da_percent k, p_other_allowances k with
  | None, None, None, None, None, None => true
  | _, _, _, _, _, _ => false
  end.

Definition set_to {A : Type} (v : option A) (old : A) : A :=
  match v with
  | Some x => x
  | None => old
  end.

(** [SET k = ?, ...] on one row. *)
Definition apply_patch (k : employee_patch) (e : employee) : employee :=
  mkemployee (emp_id e) (emp_code e)
    (set_to (p_name k) (emp_name e))
    (set_to (p_designation k) (designation e))
    (set_to (p_basic k) (basic e))
    (set_to (p_hra_percent k) (hra_percent e))
    (set_to (p_da_percent k) (da_percent e))
    (set_to (p_other_allowances k) (other_allowances e)).

Definition update_employee (emp_code0 : string) (kwargs : employee_patch)
    (d : database) : database * list string :=
  if no_fields kwargs then (d, ["No updates provided."%string])
  else
    (mkdatabase
       (mkconn (map (fun e => if has_code emp_code0 e
                              then apply_patch kwargs e else e)
                  (employees (tables d)))
          (payslips (tables d)))
       (employees_seq d),
     ["Employee updated."%string]).

Definition delete_employee (emp_code0 : string) (d : database)
  : database * list string :=
  (mkdatabase
     (mkconn (filter (fun e => negb (has_code emp_code0 e))
                (employees (tables d)))
        (payslips (tables d)))
     (employees_seq d),
   ["Employee deleted (if existed)."%string]).


(** What the constraints of the schema keep true: employee codes and keys
    are unique, keys are positive and were given out by the counter, and
    so were the keys the payslips refer to. *)
Definition well_formed (d : database) : Prop :=
  NoDup (map emp_code (employees (tables d))) /\
  NoDup (map emp_id (employees (tables d))) /\
  0 <= employees_seq d /\
  (forall e, In e (employees (tables d)) -> 0 < emp_id e <= employees_seq d) /\
  (forall p, In p (payslips (tables d)) -> 0 < ps_emp_id p <= employees_seq d) /\
  NoDup (map ps_id (payslips (tables d))) /\
  (forall p, In p (payslips (tables d)) ->
     0 < ps_id p <= Z.of_nat (List.length (payslips (tables d)))).




(** The sample directory after the payslip of the scenario, as a file
    whose employee counter stands at the last key given out. *)
Definition sample_db : database := mkdatabase scenario_conn 5.

Definition rename_patch : employee_patch :=
  mkemployee_patch (Some "Asha R"%string) None None None None None.

(** * Properties *)

(** ** Digit counts and powers of ten *)

Lemma pow10_pos (k : Z) : 0 <= k -> 0 < 10 ^ k.
Proof. intros Hk. apply Z.pow_pos_nonneg; lia. Qed.

Lemma pow10_succ (k : Z) : 0 <= k -> 10 ^ (k + 1) = 10 * 10 ^ k.
Proof. intros Hk. rewrite Z.pow_add_r by lia. change (10 ^ 1) with 10. lia. Qed.

Lemma ndigits_fuel_spec (fuel : nat) :
  forall n, 0 < n -> n < 2 ^ (Z.of_nat fuel + 1) ->
    1 <= ndigits_fuel fuel n /\
    10 ^ (ndigits_fuel fuel n - 1) <= n < 10 ^ ndigits_fuel fuel n.
Proof.
  induction fuel as [|f IH]; intros n Hpos Hlt.
  - change (2 ^ (Z.of_nat 0 + 1)) with 2 in Hlt. simpl.
    change (10 ^ (1 - 1)) with 1. change (10 ^ 1) with 10. lia.
  - cbn [ndigits_fuel]. destruct (Z.ltb_spec n 10) as [Hs|Hs].
    + change (10 ^ (1 - 1)) with 1. change (10 ^ 1) with 10. lia.
    + assert (Hq : 0 < n / 10) by (apply Z.div_str_pos; lia).
      assert (Hb : n / 10 < 2 ^ (Z.of_nat f + 1)).
      { apply Z.div_lt_upper_bound; [lia|].
        rewrite Nat2Z.inj_succ in Hlt.
        replace (Z.succ (Z.of_nat f) + 1) with ((Z.of_nat f + 1) + 1) in Hlt by lia.
        rewrite Z.pow_add_r in Hlt by lia. change (2 ^ 1) with 2 in Hlt.
        assert (0 < 2 ^ (Z.of_nat f + 1)) by (apply Z.pow_pos_nonneg; lia).
        lia. }
      destruct (IH (n / 10) Hq Hb) as (H1 & H2 & H3).
      set (d := ndigits_fuel f (n / 10)) in *.
      replace (1 + d - 1) with ((d - 1) + 1) by lia.
      replace (1 + d) with (d + 1) by lia.
      rewrite !pow10_succ by lia.
      pose proof (Z.div_mod n 10 ltac:(lia)) as Hdm.
      pose proof (Z.mod_pos_bound n 10 ltac:(lia)) as Hmb.
      lia.
Qed.

(** The digit count of a nonzero coefficient brackets its magnitude. *)
Lemma ndigits_spec (n : Z) :
  n <> 0 ->
  1 <= ndigits n /\ 10 ^ (ndigits n - 1) <= Z.abs n < 10 ^ ndigits n.
Proof.
  intros Hn. unfold ndigits. apply ndigits_fuel_spec; [lia|].
  rewrite Z2Nat.id by apply Z.log2_nonneg.
  replace (Z.log2 (Z.abs n) + 1) with (Z.succ (Z.log2 (Z.abs n))) by lia.
  apply Z.log2_spec. lia.
Qed.

Lemma ndigits_0 : ndigits 0 = 1.
Proof. reflexivity. Qed.

Lemma ndigits_le_iff (n k : Z) :
  1 <= k -> (ndigits n <= k <-> Z.abs n < 10 ^ k).
Proof.
  intros Hk. destruct (Z.eq_dec n 0) as [->|Hn].
  - rewrite ndigits_0. change (Z.abs 0) with 0. pose proof (pow10_pos k). lia.
  - destruct (ndigits_spec n Hn) as (H1 & H2 & H3). split; intros H.
    + eapply Z.lt_le_trans; [exact H3|]. apply Z.pow_le_mono_r; lia.
    + destruct (Z.le_gt_cases (ndigits n) k) as [|Hgt]; [assumption|].
      assert (10 ^ k <= 10 ^ (ndigits n - 1)) by (apply Z.pow_le_mono_r; lia).
      lia.
Qed.

Lemma ndigits_abs (n : Z) : ndigits (Z.abs n) = ndigits n.
Proof. unfold ndigits. rewrite Z.abs_idemp. reflexivity. Qed.

(** ** Rounding to the context precision *)

(** A coefficient of at most [prec] digits is left alone. *)
Lemma fix_small (c e : Z) :
  Z.abs c < 10 ^ prec -> _fix (mkdec c e) = mkdec c e.
Proof.
  intros H. unfold _fix. cbn [coef exp].
  apply (ndigits_le_iff c prec) in H; [|unfold prec; lia].
  destruct (Z.leb_spec (ndigits c) prec); [reflexivity|lia].
Qed.

Lemma round_mag_bounds (mode : rounding) (m s : Z) :
  0 <= m -> 0 <= s ->
  m / 10 ^ s <= round_mag mode m s <= m / 10 ^ s + 1.
Proof.
  intros Hm Hs. unfold round_mag.
  destruct mode.
  - destruct (_ <=? _); lia.
  - destruct (_ <? _); [lia|]. destruct (_ && _); lia.
Qed.

(** What [_fix] does to a coefficient of more than [prec] digits: the
    exponent grows by the number [s] of digits dropped and the coefficient
    keeps exactly [prec] digits, not below the truncated magnitude. *)
Lemma fix_large (c e : Z) :
  10 ^ prec <= Z.abs c ->
  exists q s,
    _fix (mkdec c e) = mkdec (Z.sgn c * q) (e + s) /\
    1 <= s /\ 10 ^ (prec - 1) <= q < 10 ^ prec /\
    Z.abs c / 10 ^ s <= q <= Z.abs c / 10 ^ s + 1.
Proof.
  intros H. unfold _fix. cbn [coef exp].
  assert (Hc : c <> 0) by (pose proof (pow10_pos prec); unfold prec in *; lia).
  destruct (ndigits_spec c Hc) as (H1 & H2 & H3).
  assert (Hn : prec < ndigits c).
  { destruct (Z.lt_ge_cases prec (ndigits c)) as [|Hle]; [assumption|].
    apply (ndigits_le_iff c prec) in Hle; [lia|unfold prec; lia]. }
  destruct (Z.leb_spec (ndigits c) prec) as [|_]; [lia|].
  set (s := ndigits c - prec) in *.
  set (q := round_mag ROUND_HALF_EVEN (Z.abs c) s).
  assert (Hs : 1 <= s) by (unfold s; lia).
  pose proof (round_mag_bounds ROUND_HALF_EVEN (Z.abs c) s ltac:(lia) ltac:(lia)) as Hq.
  fold q in Hq.
  pose proof (pow10_pos s ltac:(lia)) as Hps.
  assert (Hup : Z.abs c < 10 ^ s * 10 ^ prec).
  { rewrite <- Z.pow_add_r by (unfold prec; lia).
    replace (s + prec) with (ndigits c) by (unfold s; lia). lia. }
  assert (Hlo : 10 ^ (prec - 1) <= Z.abs c / 10 ^ s).
  { apply Z.div_le_lower_bound; [lia|].
    rewrite Z.mul_comm, <- Z.pow_add_r by (unfold prec; lia).
    replace (prec - 1 + s) with (ndigits c - 1) by (unfold s; lia). lia. }
  assert (Hhi : Z.abs c / 10 ^ s < 10 ^ prec).
  { apply Z.div_lt_upper_bound; lia. }
  destruct (Z.ltb_spec prec (ndigits q)) as [Hcarry|Hnc].
  - (* the carry produced 10 ^ prec *)
    assert (Hq28 : q = 10 ^ prec).
    { destruct (Z.lt_ge_cases (Z.abs q) (10 ^ prec)) as [Hlt|Hge].
      - apply (ndigits_le_iff q prec) in Hlt; [lia|unfold prec; lia].
      - lia. }
    exists (q / 10), (s + 1).
    assert (Hq10 : q / 10 = 10 ^ (prec - 1)) by (rewrite Hq28; reflexivity).
    rewrite Hq10.
    split; [f_equal; lia|]. split; [lia|].
    split; [split; [lia|unfold prec; apply Z.pow_lt_mono_r; lia]|].
    assert (Hd : Z.abs c / 10 ^ (s + 1) = 10 ^ (prec - 1) - 1).
    { rewrite pow10_succ by lia. rewrite (Z.mul_comm 10 (10 ^ s)).
      rewrite <- Z.div_div by lia.
      replace (Z.abs c / 10 ^ s) with (10 ^ prec - 1) by lia.
      reflexivity. }
    lia.
  - exists q, s.
    split; [reflexivity|]. split; [lia|].
    split; [|lia]. split; [lia|].
    apply (ndigits_le_iff q prec) in Hnc; [lia|unfold prec; lia].
Qed.

Lemma fix_cases (c e : Z) :
  (Z.abs c < 10 ^ prec /\ _fix (mkdec c e) = mkdec c e) \/
  (10 ^ prec <= Z.abs c /\
   exists q s, _fix (mkdec c e) = mkdec (Z.sgn c * q) (e + s) /\
               1 <= s /\ 10 ^ (prec - 1) <= q < 10 ^ prec /\
               Z.abs c / 10 ^ s <= q <= Z.abs c / 10 ^ s + 1).
Proof.
  destruct (Z.lt_ge_cases (Z.abs c) (10 ^ prec)) as [Hs|Hl].
  - left. split; [assumption|]. apply fix_small; assumption.
  - right. split; [assumption|]. apply fix_large; assumption.
Qed.

(** Rounding never changes the sign of a coefficient. *)
Lemma fix_nonpos (c e : Z) : c <= 0 -> coef (_fix (mkdec c e)) <= 0.
Proof.
  intros Hc. destruct (fix_cases c e) as [[_ ->]|[_ (q & s & -> & _ & Hq & _)]];
    cbn [coef]; [assumption|].
  assert (0 < 10 ^ (prec - 1)) by (apply pow10_pos; unfold prec; lia).
  destruct (Z.sgn_spec c) as [[? ->]|[[? ->]|[? ->]]]; lia.
Qed.

(** ** Comparisons *)

Lemma ltb_true_iff (a b : dec) :
  ltb a b = true <->
  coef a * 10 ^ (exp a - Z.min (exp a) (exp b))
  < coef b * 10 ^ (exp b - Z.min (exp a) (exp b)).
Proof.
  unfold ltb, cmp. cbv zeta.
  destruct (Z.compare_spec (coef a * 10 ^ (exp a - Z.min (exp a) (exp b)))
              (coef b * 10 ^ (exp b - Z.min (exp a) (exp b))));
    split; intros; try discriminate; try reflexivity; lia.
Qed.

Lemma ltb_false_iff (a b : dec) :
  ltb a b = false <->
  coef b * 10 ^ (exp b - Z.min (exp a) (exp b))
  <= coef a * 10 ^ (exp a - Z.min (exp a) (exp b)).
Proof.
  unfold ltb, cmp. cbv zeta.
  destruct (Z.compare_spec (coef a * 10 ^ (exp a - Z.min (exp a) (exp b)))
              (coef b * 10 ^ (exp b - Z.min (exp a) (exp b))));
    split; intros; try discriminate; try reflexivity; lia.
Qed.

Lemma leb_true_iff (a b : dec) :
  leb a b = true <->
  coef a * 10 ^ (exp a - Z.min (exp a) (exp b))
  <= coef b * 10 ^ (exp b - Z.min (exp a) (exp b)).
Proof.
  unfold leb, cmp. cbv zeta.
  destruct (Z.compare_spec (coef a * 10 ^ (exp a - Z.min (exp a) (exp b)))
              (coef b * 10 ^ (exp b - Z.min (exp a) (exp b))));
    split; intros; try discriminate; try reflexivity; lia.
Qed.

Lemma leb_false_iff (a b : dec) :
  leb a b = false <->
  coef b * 10 ^ (exp b - Z.min (exp a) (exp b))
  < coef a * 10 ^ (exp a - Z.min (exp a) (exp b)).
Proof.
  unfold leb, cmp. cbv zeta.
  destruct (Z.compare_spec (coef a * 10 ^ (exp a - Z.min (exp a) (exp b)))
              (coef b * 10 ^ (exp b - Z.min (exp a) (exp b))));
    split; intros; try discriminate; try reflexivity; lia.
Qed.

(** A value with non-positive coefficient is below every positive one. *)
Lemma ltb_nonpos_pos (a b : dec) :
  coef a <= 0 -> 0 < coef b -> ltb a b = true.
Proof.
  intros Ha Hb. apply ltb_true_iff.
  assert (0 < 10 ^ (exp a - Z.min (exp a) (exp b))) by (apply pow10_pos; lia).
  assert (0 < 10 ^ (exp b - Z.min (exp a) (exp b))) by (apply pow10_pos; lia).
  nia.
Qed.

Lemma leb_nonpos_zero (a : dec) : coef a <= 0 -> leb a (of_Z 0) = true.
Proof.
  intros Ha. apply leb_true_iff. cbn [coef exp of_Z].
  assert (0 < 10 ^ (exp a - Z.min (exp a) 0)) by (apply pow10_pos; lia).
  nia.
Qed.

Lemma leb_pos_zero (a : dec) : 0 < coef a -> leb a (of_Z 0) = false.
Proof.
  intros Ha. apply leb_false_iff. cbn [coef exp of_Z].
  assert (0 < 10 ^ (exp a - Z.min (exp a) 0)) by (apply pow10_pos; lia).
  nia.
Qed.

(** Rounding a value that is at least the integer [N] (of fewer than
    [prec] digits) does not take it below [N]. *)
Lemma fix_not_lt_int (X m N : Z) :
  m <= 0 -> 0 <= N < 10 ^ (prec - 1) -> N * 10 ^ (- m) <= X ->
  ltb (_fix (mkdec X m)) (mkdec N 0) = false.
Proof.
  intros Hm HN HX.
  assert (Hpm : 0 < 10 ^ (- m)) by (apply pow10_pos; lia).
  destruct (fix_cases X m) as [[_ ->]|[Hbig (q & s & -> & Hs & Hq & Hdiv)]];
    apply ltb_false_iff; cbn [coef exp].
  - rewrite Z.min_l by lia.
    replace (m - m) with 0 by lia. replace (0 - m) with (- m) by lia.
    change (10 ^ 0) with 1. lia.
  - assert (HX0 : 0 < X).
    { assert (0 < 10 ^ prec) by (apply pow10_pos; unfold prec; lia). nia. }
    rewrite Z.sgn_pos by assumption. rewrite Z.abs_eq in Hdiv by lia.
    destruct (Z.le_gt_cases (m + s) 0) as [Hle|Hgt].
    + rewrite Z.min_l by lia.
      replace (m + s - (m + s)) with 0 by lia. change (10 ^ 0) with 1.
      replace (0 - (m + s)) with (- m - s) by lia.
      assert (Hsplit : 10 ^ (- m) = 10 ^ (- m - s) * 10 ^ s).
      { rewrite <- Z.pow_add_r by lia. f_equal. lia. }
      assert (N * 10 ^ (- m - s) <= X / 10 ^ s).
      { apply Z.div_le_lower_bound; [apply pow10_pos; lia|]. nia. }
      lia.
    + rewrite Z.min_r by lia.
      replace (0 - 0) with 0 by lia. change (10 ^ 0) with 1.
      replace (m + s - 0) with (m + s) by lia.
      assert (0 < 10 ^ (m + s)) by (apply pow10_pos; lia).
      nia.
Qed.

(** Subtracting the previous ceiling keeps an income that is not below a
    ceiling from falling below the width of the slab. *)
Lemma sub_int_not_lt (t : dec) (L P : Z) :
  0 <= P <= L -> L < 10 ^ (prec - 1) ->
  ltb t (of_Z L) = false ->
  ltb (sub t (of_Z P)) (sub (of_Z L) (of_Z P)) = false.
Proof.
  intros HP HL Ht.
  apply ltb_false_iff in Ht. cbn [coef exp of_Z] in Ht.
  assert (HLP : sub (of_Z L) (of_Z P) = mkdec (L - P) 0).
  { unfold sub, add, copy_negate, of_Z. cbn [coef exp].
    change (Z.min 0 0) with 0. change (10 ^ (0 - 0)) with 1.
    replace (L * 1 + - P * 1) with (L - P) by lia.
    apply fix_small.
    assert (10 ^ (prec - 1) < 10 ^ prec) by (unfold prec; apply Z.pow_lt_mono_r; lia).
    lia. }
  rewrite HLP. unfold sub, add, copy_negate, of_Z. cbn [coef exp].
  apply fix_not_lt_int; [lia|lia|].
  replace (- Z.min (exp t) 0) with (0 - Z.min (exp t) 0) by lia.
  nia.
Qed.

Lemma leb_negb_ltb (a b : dec) : leb a b = negb (ltb b a).
Proof.
  destruct (ltb b a) eqn:H; cbn [negb].
  - apply leb_false_iff. apply ltb_true_iff in H.
    rewrite Z.min_comm. exact H.
  - apply leb_true_iff. apply ltb_false_iff in H.
    rewrite Z.min_comm. exact H.
Qed.

Lemma ltb_int_mono (t : dec) (L L' : Z) :
  L <= L' -> ltb (of_Z L') t = true -> ltb (of_Z L) t = true.
Proof.
  intros HL H. apply ltb_true_iff in H. apply ltb_true_iff.
  cbn [coef exp of_Z] in *.
  assert (0 < 10 ^ (0 - Z.min 0 (exp t))) by (apply pow10_pos; lia).
  nia.
Qed.

(** ** One slab of the loop *)

Lemma sub_of_Z (L P : Z) :
  Z.abs (L - P) < 10 ^ prec -> sub (of_Z L) (of_Z P) = mkdec (L - P) 0.
Proof.
  intros H. unfold sub, add, copy_negate, of_Z. cbn [coef exp].
  change (Z.min 0 0) with 0. change (10 ^ (0 - 0)) with 1.
  replace (L * 1 + - P * 1) with (L - P) by lia.
  apply fix_small. assumption.
Qed.

Lemma pow10_prec_chain :
  0 < 10 ^ (prec - 2) /\ 10 ^ (prec - 2) < 10 ^ (prec - 1) /\
  10 ^ (prec - 1) < 10 ^ prec /\ 100 * 10 ^ (prec - 2) = 10 ^ prec.
Proof. unfold prec. repeat split; reflexivity. Qed.

(** The coefficient of [t - P] for an integer [P]. *)
Lemma sub_int_coef_nonpos (t : dec) (P : Z) :
  0 <= P -> coef t <= 0 -> coef (sub t (of_Z P)) <= 0.
Proof.
  intros HP Ht. unfold sub, add, copy_negate, of_Z. cbn [coef exp].
  apply fix_nonpos.
  assert (0 < 10 ^ (exp t - Z.min (exp t) 0)) by (apply pow10_pos; lia).
  assert (0 < 10 ^ (0 - Z.min (exp t) 0)) by (apply pow10_pos; lia).
  nia.
Qed.

(** An income that is not positive leaves every slab amount non-positive:
    the slab is skipped. *)
Lemma slab_amount_nonpos (t : dec) (L P : Z) :
  0 <= P < L -> L < 10 ^ (prec - 2) -> coef t <= 0 ->
  leb (Decimal.min (sub (of_Z L) (of_Z P)) (sub t (of_Z P))) (of_Z 0) = true.
Proof.
  intros HP HL Ht. pose proof pow10_prec_chain as (C0 & C1 & C2 & C3).
  rewrite sub_of_Z by lia.
  pose proof (sub_int_coef_nonpos t P ltac:(lia) Ht) as Hs.
  unfold Decimal.min.
  rewrite (ltb_nonpos_pos (sub t (of_Z P)) (mkdec (L - P) 0))
    by (cbn [coef]; lia).
  apply leb_nonpos_zero. assumption.
Qed.

Lemma tax_loop_nonpos (slabs : list (dec * dec)) :
  forall (P : Z) (tax t : dec),
    0 <= P -> ascending_from P slabs -> coef t <= 0 ->
    tax_loop slabs tax (of_Z P) t = tax.
Proof.
  induction slabs as [|[[L e] rate] rest IH]; intros P tax t HP Hasc Ht.
  - reflexivity.
  - cbn [ascending_from coef exp] in Hasc. destruct Hasc as (-> & HL & Hrest).
    cbn [tax_loop]. change (mkdec L 0) with (of_Z L).
    rewrite slab_amount_nonpos by lia.
    apply IH; [lia|assumption|assumption].
Qed.

Lemma TAX_SLABS_ascending : ascending_from 0 TAX_SLABS.
Proof.
  unfold TAX_SLABS, ascending_from, of_Z, prec. cbn [coef exp].
  repeat split; reflexivity.
Qed.

Lemma ltb_asym (a b : dec) : ltb a b = true -> ltb b a = false.
Proof.
  intros H. apply ltb_true_iff in H. apply ltb_false_iff.
  rewrite Z.min_comm. lia.
Qed.

(** A slab lying wholly below the income is taxed on its full width and
    the loop goes on. *)
Lemma tax_loop_step_above (L P : Z) (r : dec) (rest : list (dec * dec))
    (tax t : dec) :
  0 <= P < L -> L < 10 ^ (prec - 2) -> ltb (of_Z L) t = true ->
  tax_loop ((of_Z L, r) :: rest) tax (of_Z P) t
  = tax_loop rest (add tax (mul (mkdec (L - P) 0) r)) (of_Z L) t.
Proof.
  intros HP HL Ht. pose proof pow10_prec_chain as (C0 & C1 & C2 & C3).
  cbn [tax_loop]. unfold Decimal.min.
  rewrite (sub_int_not_lt t L P) by first [lia | apply ltb_asym; assumption].
  rewrite sub_of_Z by lia.
  rewrite leb_pos_zero by (cbn [coef]; lia).
  rewrite (leb_negb_ltb t (of_Z L)), Ht. reflexivity.
Qed.

(** The slab amount of the code, [min(limit - prev_limit, taxable_income -
    prev_limit)], is the slab amount of the specification,
    [min(ceiling, taxable_income) - prev_limit], for an income with at
    most two fractional digits. *)
Lemma slab_amount_refines (t : dec) (L P : Z) :
  -2 <= exp t -> 0 <= P < L -> L < 10 ^ (prec - 2) ->
  Decimal.min (sub (of_Z L) (of_Z P)) (sub t (of_Z P))
  = sub (Decimal.min (of_Z L) t) (of_Z P).
Proof.
  intros He HP HL. pose proof pow10_prec_chain as (C0 & C1 & C2 & C3).
  unfold Decimal.min at 2. destruct (ltb t (of_Z L)) eqn:Ht.
  - (* the income ends inside this slab or below it *)
    unfold Decimal.min.
    enough (H : ltb (sub t (of_Z P)) (sub (of_Z L) (of_Z P)) = true)
      by (rewrite H; reflexivity).
    rewrite sub_of_Z by lia.
    apply ltb_true_iff in Ht. cbn [coef exp of_Z] in Ht.
    unfold sub, add, copy_negate, of_Z. cbn [coef exp].
    set (m := Z.min (exp t) 0) in *.
    assert (Hm : -2 <= m <= 0) by (unfold m; lia).
    assert (Hp : 0 < 10 ^ (0 - m) <= 100).
    { split; [apply pow10_pos; lia|].
      change 100 with (10 ^ 2). apply Z.pow_le_mono_r; lia. }
    set (X := coef t * 10 ^ (exp t - m) + - P * 10 ^ (0 - m)) in *.
    destruct (Z.le_gt_cases X 0) as [Hneg|Hpos].
    + apply ltb_nonpos_pos; [|cbn [coef]; lia].
      apply fix_nonpos. assumption.
    + rewrite fix_small by (unfold X in *; nia).
      apply ltb_true_iff. cbn [coef exp].
      replace (Z.min m 0) with m by lia.
      replace (m - m) with 0 by lia. change (10 ^ 0) with 1.
      unfold X. nia.
  - unfold Decimal.min.
    rewrite (sub_int_not_lt t L P) by first [lia | assumption].
    reflexivity.
Qed.

(** For an income with at most two fractional digits the two loops agree
    before the final rounding already, on every ascending table of integer
    ceilings. *)
Lemma tax_loop_refines (slabs : list (dec * dec)) :
  forall (P : Z) (tax t : dec),
    -2 <= exp t -> 0 <= P -> ascending_from P slabs ->
    tax_loop slabs tax (of_Z P) t = spec_tax_loop slabs tax (of_Z P) t.
Proof.
  induction slabs as [|[[L e] rate] rest IH]; intros P tax t He HP Hasc.
  - reflexivity.
  - cbn [ascending_from coef exp] in Hasc. destruct Hasc as (-> & HL & Hrest).
    cbn [tax_loop spec_tax_loop]. change (mkdec L 0) with (of_Z L).
    rewrite slab_amount_refines by lia.
    destruct (leb (sub (Decimal.min (of_Z L) t) (of_Z P)) (of_Z 0)).
    + apply IH; [assumption|lia|assumption].
    + destruct (leb t (of_Z L)); [reflexivity|].
      apply IH; [assumption|lia|assumption].
Qed.

(** ** Trailing zeros do not matter *)

Lemma ndigits_scale (c k : Z) :
  c <> 0 -> 0 <= k -> ndigits (c * 10 ^ k) = ndigits c + k.
Proof.
  intros Hc Hk. pose proof (pow10_pos k Hk) as Hp.
  assert (Hck : c * 10 ^ k <> 0) by nia.
  destruct (ndigits_spec c Hc) as (D1 & D2 & D3).
  destruct (ndigits_spec (c * 10 ^ k) Hck) as (N1 & N2 & N3).
  rewrite Z.abs_mul, (Z.abs_eq (10 ^ k)) in N2, N3 by lia.
  set (d := ndigits c) in *. set (n := ndigits (c * 10 ^ k)) in *.
  assert (L1 : 10 ^ (d - 1 + k) <= Z.abs c * 10 ^ k)
    by (rewrite Z.pow_add_r by lia; nia).
  assert (L2 : Z.abs c * 10 ^ k < 10 ^ (d + k))
    by (rewrite Z.pow_add_r by lia; nia).
  destruct (Z.lt_trichotomy n (d + k)) as [Hlt|[Heq|Hgt]]; [|assumption|].
  - assert (10 ^ n <= 10 ^ (d - 1 + k)) by (apply Z.pow_le_mono_r; lia). lia.
  - assert (10 ^ (d + k) <= 10 ^ (n - 1)) by (apply Z.pow_le_mono_r; lia). lia.
Qed.

Lemma round_mag_scale (mode : rounding) (m s k : Z) :
  0 <= m -> 0 <= s -> 0 <= k ->
  round_mag mode (m * 10 ^ k) (s + k) = round_mag mode m s.
Proof.
  intros Hm Hs Hk. unfold round_mag. cbv zeta.
  pose proof (pow10_pos k Hk) as Hpk. pose proof (pow10_pos s Hs) as Hps.
  rewrite Z.pow_add_r by lia.
  rewrite Z.div_mul_cancel_r by lia.
  rewrite Z.mul_mod_distr_r by lia.
  set (q := m / 10 ^ s). set (r := m mod 10 ^ s).
  destruct mode.
  - destruct (Z.leb_spec (10 ^ s * 10 ^ k) (2 * (r * 10 ^ k)));
      destruct (Z.leb_spec (10 ^ s) (2 * r)); try reflexivity; nia.
  - destruct (Z.ltb_spec (10 ^ s * 10 ^ k) (2 * (r * 10 ^ k)));
      destruct (Z.ltb_spec (10 ^ s) (2 * r)); try reflexivity; try nia.
    destruct (Z.eqb_spec (10 ^ s * 10 ^ k) (2 * (r * 10 ^ k)));
      destruct (Z.eqb_spec (10 ^ s) (2 * r)); try reflexivity; nia.
Qed.

Lemma round_mag_exact (mode : rounding) (m k s : Z) :
  0 <= m -> 0 <= s <= k ->
  round_mag mode (m * 10 ^ k) s = m * 10 ^ (k - s).
Proof.
  intros Hm Hs. unfold round_mag. cbv zeta.
  pose proof (pow10_pos s ltac:(lia)) as Hps.
  assert (E : m * 10 ^ k = m * 10 ^ (k - s) * 10 ^ s).
  { rewrite <- Z.mul_assoc, <- Z.pow_add_r by lia. do 2 f_equal. lia. }
  rewrite E. rewrite Z.div_mul, Z.mod_mul by lia.
  destruct mode.
  - destruct (Z.leb_spec (10 ^ s) (2 * 0)); [lia|reflexivity].
  - destruct (Z.ltb_spec (10 ^ s) (2 * 0)); [lia|].
    destruct (Z.eqb_spec (10 ^ s) (2 * 0)); [lia|reflexivity].
Qed.

(** Rounding to the context precision sees the value, not the trailing
    zeros. *)
Lemma fix_scaled (a b : dec) : scaled a b -> scaled (_fix a) (_fix b).
Proof.
  destruct a as [ca ea], b as [c e]. intros (k & Hk & Hc & He).
  cbn [coef exp] in Hc, He. subst ca ea.
  pose proof (pow10_pos k Hk) as Hpk.
  destruct (Z.eq_dec c 0) as [->|Hnz].
  { rewrite Z.mul_0_l. rewrite !fix_small by reflexivity.
    exists k. cbn [coef exp]. repeat split; lia. }
  unfold _fix. cbn [coef exp].
  rewrite (ndigits_scale c k Hnz Hk).
  rewrite Z.abs_mul, (Z.abs_eq (10 ^ k)) by lia.
  rewrite Z.sgn_mul, (Z.sgn_pos (10 ^ k)), Z.mul_1_r by lia.
  set (n := ndigits c).
  destruct (Z.leb_spec n prec) as [Hn|Hn].
  - destruct (Z.leb_spec (n + k) prec) as [Hnk|Hnk].
    + exists k. cbn [coef exp]. repeat split; lia.
    + (* only the longer representation is cut, and only zeros go *)
      rewrite round_mag_exact by lia.
      assert (Hq : ndigits (Z.abs c * 10 ^ (k - (n + k - prec))) = prec).
      { rewrite ndigits_scale by lia. rewrite ndigits_abs. fold n. lia. }
      rewrite Hq. rewrite Z.ltb_irrefl.
      exists (k - (n + k - prec)). cbn [coef exp].
      split; [lia|]. split; [|lia].
      rewrite Z.mul_assoc. f_equal.
      destruct (Z.sgn_spec c) as [[? ->]|[[? ->]|[? ->]]]; lia.
  - destruct (Z.leb_spec (n + k) prec) as [Hnk|Hnk]; [lia|].
    replace (n + k - prec) with (n - prec + k) by lia.
    rewrite round_mag_scale by lia.
    set (q := round_mag ROUND_HALF_EVEN (Z.abs c) (n - prec)).
    destruct (prec <? ndigits q).
    + exists 0. change (10 ^ 0) with 1. cbn [coef exp]. repeat split; lia.
    + exists 0. change (10 ^ 0) with 1. cbn [coef exp]. repeat split; lia.
Qed.

Lemma sgn_mul_abs (c : Z) : Z.sgn c * Z.abs c = c.
Proof. destruct (Z.sgn_spec c) as [[? ->]|[[? ->]|[? ->]]]; lia. Qed.

Lemma rescale_scaled (a b : dec) (t : Z) (mode : rounding) :
  scaled a b -> _rescale a t mode = _rescale b t mode.
Proof.
  destruct a as [ca ea], b as [c e]. intros (k & Hk & Hc & He).
  cbn [coef exp] in Hc, He. subst ca ea.
  pose proof (pow10_pos k Hk) as Hpk.
  unfold _rescale. cbn [coef exp].
  destruct (Z.eqb_spec c 0) as [->|Hnz]; [rewrite Z.mul_0_l; reflexivity|].
  destruct (Z.eqb_spec (c * 10 ^ k) 0) as [E|_]; [nia|].
  rewrite Z.abs_mul, (Z.abs_eq (10 ^ k)) by lia.
  rewrite Z.sgn_mul, (Z.sgn_pos (10 ^ k)), Z.mul_1_r by lia.
  destruct (Z.leb_spec t e) as [Hte|Hte].
  - destruct (Z.leb_spec t (e - k)) as [Htk|Htk].
    + f_equal. rewrite <- Z.mul_assoc, <- Z.pow_add_r by lia.
      do 2 f_equal. lia.
    + rewrite round_mag_exact by lia.
      f_equal. rewrite Z.mul_assoc, sgn_mul_abs. do 2 f_equal. lia.
  - destruct (Z.leb_spec t (e - k)) as [Htk|Htk]; [lia|].
    replace (t - (e - k)) with (t - e + k) by lia.
    rewrite round_mag_scale by lia. reflexivity.
Qed.

(** Quantizing sees the value, not the trailing zeros. *)
Lemma quantize_scaled (a b q : dec) (mode : rounding) :
  scaled a b -> quantize a q mode = quantize b q mode.
Proof.
  intros H. pose proof (rescale_scaled a b (exp q) mode H) as Hr.
  destruct a as [ca ea], b as [c e]. destruct H as (k & Hk & Hc & He).
  cbn [coef exp] in Hc, He. subst ca ea.
  pose proof (pow10_pos k Hk) as Hpk.
  unfold quantize. rewrite Hr. cbn [coef exp].
  destruct (Z.eqb_spec c 0) as [->|Hnz]; [rewrite Z.mul_0_l; reflexivity|].
  destruct (Z.eqb_spec (c * 10 ^ k) 0) as [E|_]; [nia|].
  unfold adjusted. cbn [coef exp]. rewrite ndigits_scale by lia.
  replace (e - k + (ndigits c + k) - 1) with (e + ndigits c - 1) by lia.
  reflexivity.
Qed.

Lemma add_scaled (t a b : dec) : scaled a b -> scaled (add t a) (add t b).
Proof.
  destruct a as [ca ea], b as [c e], t as [ct et]. intros (k & Hk & Hc & He).
  cbn [coef exp] in Hc, He. subst ca ea.
  unfold add. cbn [coef exp]. apply fix_scaled.
  set (m1 := Z.min et (e - k)). set (m2 := Z.min et e).
  assert (Hm : 0 <= m2 - m1) by (unfold m1, m2; lia).
  exists (m2 - m1). cbn [coef exp]. split; [lia|]. split; [|lia].
  rewrite Z.mul_add_distr_r.
  rewrite <- !Z.mul_assoc, <- !Z.pow_add_r by (unfold m1, m2; lia).
  f_equal; do 2 f_equal; lia.
Qed.

Lemma mul_scaled (a b r : dec) : scaled a b -> scaled (mul a r) (mul b r).
Proof.
  destruct a as [ca ea], b as [c e], r as [cr er]. intros (k & Hk & Hc & He).
  cbn [coef exp] in Hc, He. subst ca ea.
  unfold mul. cbn [coef exp]. apply fix_scaled.
  exists k. cbn [coef exp]. split; [lia|]. split; lia.
Qed.

(** Equal values are one representation scaled into the other. *)
Lemma cmp_Eq_scaled (a b : dec) : cmp a b = Eq -> scaled a b \/ scaled b a.
Proof.
  unfold cmp. cbv zeta. intros H. apply Z.compare_eq_iff in H.
  destruct (Z.le_gt_cases (exp a) (exp b)) as [Hle|Hgt].
  - left. rewrite Z.min_l in H by lia.
    replace (exp a - exp a) with 0 in H by lia. change (10 ^ 0) with 1 in H.
    exists (exp b - exp a). split; [lia|]. split; lia.
  - right. rewrite Z.min_r in H by lia.
    replace (exp b - exp b) with 0 in H by lia. change (10 ^ 0) with 1 in H.
    exists (exp a - exp b). split; [lia|]. split; lia.
Qed.

(** The tax a slab adds, once rounded, does not depend on how the slab
    amount is written. *)
Lemma slab_tax_scaled (tax a b r : dec) :
  scaled a b ->
  to_decimal (add tax (mul a r)) = to_decimal (add tax (mul b r)).
Proof.
  intros H. unfold to_decimal. apply quantize_scaled.
  apply add_scaled. apply mul_scaled. assumption.
Qed.

Lemma slab_tax_same_value (tax a b r : dec) :
  cmp a b = Eq ->
  to_decimal (add tax (mul a r)) = to_decimal (add tax (mul b r)).
Proof.
  intros H. destruct (cmp_Eq_scaled a b H) as [S|S].
  - apply slab_tax_scaled. assumption.
  - symmetry. apply slab_tax_scaled. assumption.
Qed.

(** Rounding a value that is below the integer [N] does not take it
    above [N]. *)
Lemma fix_not_gt_int (X m N : Z) :
  m <= 0 -> 0 <= N < 10 ^ (prec - 1) -> X < N * 10 ^ (- m) ->
  ltb (mkdec N 0) (_fix (mkdec X m)) = false.
Proof.
  intros Hm HN HX.
  assert (Hpm : 0 < 10 ^ (- m)) by (apply pow10_pos; lia).
  pose proof pow10_prec_chain as (C0 & C1 & C2 & C3).
  destruct (fix_cases X m) as [[_ ->]|[Hbig (q & s & -> & Hs & Hq & Hdiv)]];
    apply ltb_false_iff; cbn [coef exp].
  - rewrite Z.min_r by lia.
    replace (m - m) with 0 by lia. replace (0 - m) with (- m) by lia.
    change (10 ^ 0) with 1. lia.
  - assert (Hps : 0 < 10 ^ s) by (apply pow10_pos; lia).
    assert (Hp1 : 0 < 10 ^ (m + s - Z.min 0 (m + s))) by (apply pow10_pos; lia).
    assert (Hp2 : 0 < 10 ^ (0 - Z.min 0 (m + s))) by (apply pow10_pos; lia).
    destruct (Z.lt_ge_cases X 0) as [Hneg|Hpos].
    + rewrite Z.sgn_neg by assumption. nia.
    + assert (HX0 : 0 < X) by lia.
      rewrite Z.sgn_pos by assumption. rewrite Z.abs_eq in Hdiv by lia.
      pose proof (Z.mul_div_le X (10 ^ s) Hps) as Hfloor.
      assert (HNs : N * 10 ^ s <= X) by nia.
      assert (Hlt : 10 ^ s < 10 ^ (- m)) by nia.
      assert (Hsm : s < - m).
      { apply (Z.pow_lt_mono_r_iff 10); lia. }
      rewrite Z.min_r by lia.
      replace (m + s - (m + s)) with 0 by lia. change (10 ^ 0) with 1.
      replace (0 - (m + s)) with (- m - s) by lia.
      assert (Hsplit : 10 ^ (- m) = 10 ^ (- m - s) * 10 ^ s).
      { rewrite <- Z.pow_add_r by lia. f_equal. lia. }
      assert (X / 10 ^ s < N * 10 ^ (- m - s)).
      { apply Z.div_lt_upper_bound; [assumption|]. nia. }
      lia.
Qed.

Lemma sub_int_not_gt (t : dec) (L P : Z) :
  0 <= P <= L -> L < 10 ^ (prec - 1) ->
  ltb t (of_Z L) = true ->
  ltb (sub (of_Z L) (of_Z P)) (sub t (of_Z P)) = false.
Proof.
  intros HP HL Ht. pose proof pow10_prec_chain as (C0 & C1 & C2 & C3).
  apply ltb_true_iff in Ht. cbn [coef exp of_Z] in Ht.
  rewrite sub_of_Z by lia.
  unfold sub, add, copy_negate, of_Z. cbn [coef exp].
  apply fix_not_gt_int; [lia|lia|].
  replace (- Z.min (exp t) 0) with (0 - Z.min (exp t) 0) by lia.
  nia.
Qed.

Lemma ltb_antisym_eq (a b : dec) :
  ltb a b = false -> ltb b a = false -> cmp a b = Eq.
Proof.
  intros H1 H2. apply ltb_false_iff in H1, H2.
  rewrite (Z.min_comm (exp b) (exp a)) in H2.
  unfold cmp. cbv zeta. apply Z.compare_eq_iff. lia.
Qed.

Lemma ltb_true_leb (a b : dec) : ltb a b = true -> leb a b = true.
Proof.
  intros H. apply ltb_true_iff in H. apply leb_true_iff. lia.
Qed.

(** A value equal to a positive integer is positive. *)
Lemma cmp_Eq_pos (a : dec) (N : Z) :
  0 < N -> cmp a (mkdec N 0) = Eq -> leb a (of_Z 0) = false.
Proof.
  unfold cmp. cbv zeta. cbn [coef exp]. intros HN H.
  apply Z.compare_eq_iff in H. apply leb_pos_zero.
  assert (0 < 10 ^ (exp a - Z.min (exp a) 0)) by (apply pow10_pos; lia).
  assert (0 < 10 ^ (0 - Z.min (exp a) 0)) by (apply pow10_pos; lia).
  nia.
Qed.

(** The loop of the code and the loop of the specification, on every
    ascending table of integer ceilings and every income: the same tax
    once rounded. *)
Lemma tax_loop_refines_rounded (slabs : list (dec * dec)) :
  forall (P : Z) (tax t : dec),
    0 <= P -> ascending_from P slabs ->
    to_decimal (tax_loop slabs tax (of_Z P) t)
    = to_decimal (spec_tax_loop slabs tax (of_Z P) t).
Proof.
  induction slabs as [|[[L e] rate] rest IH]; intros P tax t HP Hasc.
  - reflexivity.
  - cbn [ascending_from coef exp] in Hasc. destruct Hasc as (-> & HL & Hrest).
    pose proof pow10_prec_chain as (C0 & C1 & C2 & C3).
    cbn [tax_loop spec_tax_loop]. change (mkdec L 0) with (of_Z L).
    assert (Same : forall amount,
               to_decimal
                 (if leb amount (of_Z 0) then tax_loop rest tax (of_Z L) t
                  else if leb t (of_Z L) then add tax (mul amount rate)
                       else tax_loop rest (add tax (mul amount rate)) (of_Z L) t)
               = to_decimal
                   (if leb amount (of_Z 0)
                    then spec_tax_loop rest tax (of_Z L) t
                    else if leb t (of_Z L) then add tax (mul amount rate)
                         else spec_tax_loop rest (add tax (mul amount rate))
                                (of_Z L) t)).
    { intros amount. destruct (leb amount (of_Z 0)).
      - apply IH; [lia|assumption].
      - destruct (leb t (of_Z L)); [reflexivity|].
        apply IH; [lia|assumption]. }
    set (ac := Decimal.min (sub (of_Z L) (of_Z P)) (sub t (of_Z P))).
    set (asp := sub (Decimal.min (of_Z L) t) (of_Z P)).
    remember (ltb t (of_Z L)) as below eqn:Ebelow. symmetry in Ebelow.
    destruct below.
    + (* the income ends inside this slab or below it *)
      assert (Hasp : asp = sub t (of_Z P))
        by (unfold asp, Decimal.min; rewrite Ebelow; reflexivity).
      remember (ltb (sub t (of_Z P)) (sub (of_Z L) (of_Z P))) as inside
        eqn:Einside. symmetry in Einside.
      destruct inside.
      * assert (Hac : ac = sub t (of_Z P))
          by (unfold ac, Decimal.min; rewrite Einside; reflexivity).
        rewrite Hac, Hasp. apply Same.
      * (* [income - prev_limit] was rounded up to the width of the slab *)
        assert (Hac : ac = sub (of_Z L) (of_Z P))
          by (unfold ac, Decimal.min; rewrite Einside; reflexivity).
        pose proof (sub_int_not_gt t L P ltac:(lia) ltac:(lia) Ebelow) as Hup.
        pose proof (ltb_antisym_eq _ _ Einside Hup) as Heq.
        rewrite Hac, Hasp. rewrite (ltb_true_leb _ _ Ebelow).
        rewrite sub_of_Z in * by lia.
        rewrite (leb_pos_zero (mkdec (L - P) 0)) by (cbn [coef]; lia).
        rewrite (cmp_Eq_pos _ (L - P) ltac:(lia) Heq).
        symmetry. apply slab_tax_same_value. assumption.
    + assert (Hasp : asp = sub (of_Z L) (of_Z P))
        by (unfold asp, Decimal.min; rewrite Ebelow; reflexivity).
      assert (Hac : ac = sub (of_Z L) (of_Z P)).
      { unfold ac, Decimal.min.
        rewrite (sub_int_not_lt t L P) by first [lia | assumption].
        reflexivity. }
      rewrite Hac, Hasp. apply Same.
Qed.

(** ** The stop test at every slab *)

Lemma leb_int_mono (t : dec) (L L' : Z) :
  L <= L' -> leb t (of_Z L) = true -> leb t (of_Z L') = true.
Proof.
  intros HL H. apply leb_true_iff in H. apply leb_true_iff.
  cbn [coef exp of_Z] in *.
  assert (0 < 10 ^ (0 - Z.min (exp t) 0)) by (apply pow10_pos; lia).
  nia.
Qed.

Lemma leb_int_ltb (t : dec) (L L' : Z) :
  L < L' -> leb t (of_Z L) = true -> ltb t (of_Z L') = true.
Proof.
  intros HL H. apply leb_true_iff in H. apply ltb_true_iff.
  cbn [coef exp of_Z] in *.
  assert (0 < 10 ^ (0 - Z.min (exp t) 0)) by (apply pow10_pos; lia).
  nia.
Qed.

(** An income at or below the previous ceiling gets nothing from the
    slabs above it. *)
Lemma spec_tax_loop_below (slabs : list (dec * dec)) :
  forall (P : Z) (total t : dec),
    0 <= P -> ascending_from P slabs -> leb t (of_Z P) = true ->
    spec_tax_loop slabs total (of_Z P) t = total.
Proof.
  induction slabs as [|[[L e] rate] rest IH]; intros P total t HP Hasc Ht.
  - reflexivity.
  - cbn [ascending_from coef exp] in Hasc. destruct Hasc as (-> & HL & Hrest).
    cbn [spec_tax_loop]. change (mkdec L 0) with (of_Z L).
    unfold Decimal.min.
    rewrite (leb_int_ltb t P L) by first [lia | assumption].
    assert (Hamount : leb (sub t (of_Z P)) (of_Z 0) = true).
    { apply leb_nonpos_zero.
      unfold sub, add, copy_negate, of_Z. cbn [coef exp].
      apply fix_nonpos.
      apply leb_true_iff in Ht. cbn [coef exp of_Z] in Ht. lia. }
    rewrite Hamount.
    apply IH; [lia|assumption|].
    apply (leb_int_mono t P L); [lia|assumption].
Qed.

(** On an ascending table the stop test may as well be made at every
    slab. *)
Lemma spec_tax_loop_eager_same (slabs : list (dec * dec)) :
  forall (P : Z) (total t : dec),
    0 <= P -> ascending_from P slabs ->
    spec_tax_loop_eager slabs total (of_Z P) t
    = spec_tax_loop slabs total (of_Z P) t.
Proof.
  induction slabs as [|[[L e] rate] rest IH]; intros P total t HP Hasc.
  - reflexivity.
  - pose proof Hasc as Hasc'.
    cbn [ascending_from coef exp] in Hasc. destruct Hasc as (-> & HL & Hrest).
    cbn [spec_tax_loop_eager spec_tax_loop]. change (mkdec L 0) with (of_Z L).
    set (amount := sub (Decimal.min (of_Z L) t) (of_Z P)).
    destruct (leb amount (of_Z 0)).
    + remember (leb t (of_Z L)) as stop eqn:Es. symmetry in Es.
      destruct stop.
      * symmetry. apply spec_tax_loop_below; [lia|assumption|assumption].
      * apply IH; [lia|assumption].
    + destruct (leb t (of_Z L)); [reflexivity|].
      apply IH; [lia|assumption].
Qed.

(** ** The tax calculator *)

(** C3. On every taxable income, [income_tax_annually] returns what the
    reference progressive-slab computation of the specification returns
    over the fixed table: with [prev_limit] starting at 0, each slab
    contributes [(min(ceiling, taxable_income) - prev_limit) * rate] when
    that amount is positive and nothing otherwise, the iteration stops
    once [taxable_income <= ceiling], and the accumulated total is rounded
    once, at the end, to two decimals.  The stop test may be read as made
    after a slab that added tax ([annual_tax]) or at every slab
    ([annual_tax_eager]): the result is the same. *)
Theorem income_tax_annually_refines_spec (t : dec) :
  income_tax_annually t = annual_tax t TAX_SLABS /\
  income_tax_annually t = annual_tax_eager t TAX_SLABS.
Proof.
  assert (H : income_tax_annually t = annual_tax t TAX_SLABS).
  { unfold income_tax_annually, annual_tax, accumulated_tax.
    change round_money with to_decimal.
    apply (tax_loop_refines_rounded TAX_SLABS 0 (of_Z 0) t).
    - lia.
    - exact TAX_SLABS_ascending. }
  split; [exact H|]. rewrite H. unfold annual_tax, annual_tax_eager.
  rewrite (spec_tax_loop_eager_same TAX_SLABS 0 (of_Z 0) t ltac:(lia)
             TAX_SLABS_ascending).
  reflexivity.
Qed.

(** C9. For every taxable income that is zero or negative the annual tax
    function returns normally, and what it returns is exactly 0.00: no slab
    contributes. *)
Theorem income_tax_annually_nonpositive (t : dec) :
  leb t (of_Z 0) = true ->
  income_tax_annually t = Ok (mkdec 0 (-2)).
Proof.
  intros H. apply leb_true_iff in H. cbn [coef exp of_Z] in H.
  assert (Ht : coef t <= 0).
  { assert (0 < 10 ^ (exp t - Z.min (exp t) 0)) by (apply pow10_pos; lia).
    nia. }
  unfold income_tax_annually, accumulated_tax.
  rewrite (tax_loop_nonpos TAX_SLABS 0 (of_Z 0) t ltac:(lia)
             TAX_SLABS_ascending Ht).
  reflexivity.
Qed.

Lemma income_tax_annually_nonpositive_witness :
  income_tax_annually (mkdec (-5000000) (-2)) = Ok (mkdec 0 (-2)).
Proof.
  apply (income_tax_annually_nonpositive (mkdec (-5000000) (-2))).
  reflexivity.
Defined.

(** C10. Every taxable income strictly above the last ceiling, 999999999,
    is taxed like 999999999 itself: the part above the last ceiling adds
    nothing. *)
Theorem income_tax_annually_above_last_ceiling (t : dec) :
  ltb (of_Z 999999999) t = true ->
  income_tax_annually t = income_tax_annually (of_Z 999999999).
Proof.
  intros Ht. pose proof pow10_prec_chain as (C0 & C1 & C2 & C3).
  assert (B : 999999999 < 10 ^ (prec - 2)) by reflexivity.
  unfold income_tax_annually at 1. unfold accumulated_tax, TAX_SLABS.
  rewrite tax_loop_step_above
    by first [lia | apply (ltb_int_mono t _ 999999999); [lia|assumption]].
  rewrite tax_loop_step_above
    by first [lia | apply (ltb_int_mono t _ 999999999); [lia|assumption]].
  rewrite tax_loop_step_above
    by first [lia | apply (ltb_int_mono t _ 999999999); [lia|assumption]].
  rewrite tax_loop_step_above by first [lia | assumption].
  reflexivity.
Qed.

Lemma income_tax_annually_above_last_ceiling_witness :
  income_tax_annually (mkdec 100000000000 (-2))
  = income_tax_annually (of_Z 999999999).
Proof.
  apply (income_tax_annually_above_last_ceiling (mkdec 100000000000 (-2))).
  reflexivity.
Defined.

(** ** Quantizing to cents *)

Lemma rescale_exp (d : dec) (e : Z) (mode : rounding) :
  exp (_rescale d e mode) = e.
Proof.
  unfold _rescale. destruct (coef d =? 0); [reflexivity|].
  destruct (e <=? exp d); reflexivity.
Qed.

(** What [quantize] returns has the exponent asked for and fits the
    context precision. *)
Lemma quantize_range (d q : dec) (mode : rounding) (v : dec) :
  quantize d q mode = Ok v ->
  exp v = exp q /\ Z.abs (coef v) < 10 ^ prec.
Proof.
  unfold quantize. destruct (coef d =? 0).
  - intros [= <-]. rewrite fix_small by reflexivity. cbn [coef exp].
    split; reflexivity.
  - destruct (prec <? adjusted d - exp q + 1); [discriminate|].
    destruct (Z.ltb_spec prec (ndigits (coef (_rescale d (exp q) mode))))
      as [|Hle]; [discriminate|].
    intros [= <-].
    apply ndigits_le_iff in Hle; [|unfold prec; lia].
    destruct (_rescale d (exp q) mode) as [c e] eqn:E.
    assert (He : e = exp q)
      by (change e with (exp (mkdec c e)); rewrite <- E; apply rescale_exp).
    cbn [coef] in Hle. rewrite fix_small by assumption. cbn [coef exp].
    split; assumption.
Qed.

(** An amount already in cents and within the precision is returned as it
    is, whatever the rounding mode. *)
Lemma quantize_cents_id (c : Z) (mode : rounding) :
  Z.abs c < 10 ^ prec ->
  quantize (mkdec c (-2)) cent mode = Ok (mkdec c (-2)).
Proof.
  intros Hc. unfold quantize. cbn [coef exp cent].
  destruct (Z.eqb_spec c 0) as [->|Hnz]; [reflexivity|].
  pose proof (proj2 (ndigits_le_iff c prec ltac:(unfold prec; lia)) Hc) as Hn.
  unfold adjusted. cbn [coef exp].
  destruct (Z.ltb_spec prec (-2 + ndigits c - 1 - -2 + 1)) as [|_]; [lia|].
  unfold _rescale. cbn [coef exp].
  destruct (Z.eqb_spec c 0) as [|_]; [contradiction|].
  change (-2 <=? -2) with true. cbv iota.
  change (10 ^ (-2 - -2)) with 1. rewrite Z.mul_1_r. cbn [coef].
  destruct (Z.ltb_spec prec (ndigits c)) as [|_]; [lia|].
  rewrite fix_small by assumption. reflexivity.
Qed.

(** A coefficient rounded by [_fix] no longer fits two fractional digits
    within the precision: quantizing it raises. *)
Lemma quantize_fix_large (c : Z) (mode : rounding) :
  10 ^ prec <= Z.abs c ->
  quantize (_fix (mkdec c (-2))) cent mode = Raise InvalidOperation.
Proof.
  intros Hc. destruct (fix_large c (-2) Hc) as (q & s & -> & Hs & Hq & _).
  pose proof pow10_prec_chain as (C0 & C1 & C2 & C3).
  assert (Hnz : c <> 0) by lia.
  assert (Habs : Z.abs (Z.sgn c * q) = q).
  { destruct (Z.sgn_spec c) as [[? ->]|[[? ->]|[? ->]]]; lia. }
  assert (Hn : prec <= ndigits (Z.sgn c * q)).
  { destruct (Z.lt_ge_cases (ndigits (Z.sgn c * q)) prec) as [Hlt|]; [|assumption].
    assert (Hle : ndigits (Z.sgn c * q) <= prec - 1) by lia.
    apply ndigits_le_iff in Hle; [|unfold prec; lia]. lia. }
  unfold quantize. cbn [coef exp cent].
  destruct (Z.eqb_spec (Z.sgn c * q) 0) as [E|_]; [lia|].
  unfold adjusted. cbn [coef exp].
  destruct (Z.ltb_spec prec (-2 + s + ndigits (Z.sgn c * q) - 1 - -2 + 1)) as [|];
    [reflexivity|lia].
Qed.

(** The sum of two amounts in cents, quantized: when it is returned, it is
    the exact sum. *)
Lemma quantize_add_cents (x y : Z) (mode : rounding) (v : dec) :
  quantize (add (mkdec x (-2)) (mkdec y (-2))) cent mode = Ok v ->
  v = mkdec (x + y) (-2).
Proof.
  unfold add. cbn [coef exp]. change (Z.min (-2) (-2)) with (-2).
  change (10 ^ (-2 - -2)) with 1. rewrite !Z.mul_1_r.
  destruct (Z.lt_ge_cases (Z.abs (x + y)) (10 ^ prec)) as [Hs|Hl].
  - rewrite fix_small by assumption. rewrite quantize_cents_id by assumption.
    intros [= <-]. reflexivity.
  - rewrite quantize_fix_large by assumption. discriminate.
Qed.

Lemma quantize_sub_cents (x y : Z) (mode : rounding) (v : dec) :
  quantize (sub (mkdec x (-2)) (mkdec y (-2))) cent mode = Ok v ->
  v = mkdec (x - y) (-2).
Proof.
  unfold sub, copy_negate. cbn [coef exp]. intros H.
  apply quantize_add_cents in H. rewrite H. reflexivity.
Qed.

Lemma add_cents_small (x y : Z) :
  Z.abs (x + y) < 10 ^ prec ->
  add (mkdec x (-2)) (mkdec y (-2)) = mkdec (x + y) (-2).
Proof.
  intros H. unfold add. cbn [coef exp]. change (Z.min (-2) (-2)) with (-2).
  change (10 ^ (-2 - -2)) with 1. rewrite !Z.mul_1_r.
  apply fix_small. assumption.
Qed.

(** A quantized amount, as a coefficient in cents. *)
Lemma quantize_cent_shape (d : dec) (mode : rounding) (v : dec) :
  quantize d cent mode = Ok v ->
  exists c, v = mkdec c (-2) /\ Z.abs c < 10 ^ prec.
Proof.
  intros H. apply quantize_range in H. destruct H as [He Hc].
  destruct v as [c e]. cbn [coef exp cent] in *. subst e.
  exists c. split; [reflexivity|assumption].
Qed.

(** ** Inverting a successful pay computation *)

Lemma bind_ok {A B : Type} (r : result A) (k : A -> result B) (v : B) :
  bind r k = Ok v -> exists a, r = Ok a /\ k a = Ok v.
Proof.
  destruct r as [a|e]; cbn [bind]; [|discriminate].
  intros H. exists a. split; [reflexivity|assumption].
Qed.

Ltac bind_inv H :=
  repeat match type of H with
         | bind _ _ = Ok _ =>
             let a := fresh "a" in
             let E := fresh "E" in
             apply bind_ok in H; destruct H as (a & E & H)
         end.

(** What the local variables are when the arithmetic goes through. *)
Lemma pay_amounts_ok (b0 h0 d0 o0 : dec) (l : pay_locals) :
  pay_amounts b0 h0 d0 o0 = Ok l ->
  to_decimal b0 = Ok (l_basic l) /\
  to_decimal o0 = Ok (l_other_allow l) /\
  (exists hq, quantize_cent hq = Ok (l_hra l)) /\
  (exists dq, quantize_cent dq = Ok (l_da l)) /\
  quantize_cent (add (add (add (l_basic l) (l_hra l)) (l_da l))
                   (l_other_allow l)) = Ok (l_gross l) /\
  (exists pq, quantize_cent pq = Ok (l_pf l)) /\
  l_annual_gross l = mul (l_gross l) (of_Z 12) /\
  l_taxable_ann l
  = Decimal.max (of_Z 0) (sub (l_annual_gross l) standard_deduction) /\
  income_tax_annually (l_taxable_ann l) = Ok (l_annual_tax l) /\
  (exists mq, div (l_annual_tax l) (of_Z 12) = Ok mq /\
              quantize_cent mq = Ok (l_monthly_tax l)) /\
  quantize_cent (add (l_pf l) (l_monthly_tax l)) = Ok (l_total_deductions l) /\
  quantize_cent (sub (l_gross l) (l_total_deductions l)) = Ok (l_net l).
Proof.
  unfold pay_amounts. intros H. bind_inv H.
  injection H as <-. cbn [l_basic l_hra l_da l_other_allow l_gross l_pf
    l_annual_gross l_taxable_ann l_annual_tax l_monthly_tax
    l_total_deductions l_net].
  exact (conj E (conj E6 (conj (ex_intro _ _ E2) (conj (ex_intro _ _ E5)
    (conj E7 (conj (ex_intro _ _ E9) (conj eq_refl (conj eq_refl
    (conj E10 (conj (ex_intro _ _ (conj E11 E12)) (conj E13 E14))))))))))).
Qed.

(** What a successful [compute_pay] did. *)
Lemma compute_pay_ok (code : string) (month : option string) (clk : clock)
    (c c' : conn) (r : pay_result) :
  compute_pay code month clk c = (Ok r, c') ->
  exists row l,
    find (fun e => String.eqb (emp_code e) code) (employees c) = Some row /\
    pay_amounts (basic row) (hra_percent row) (da_percent row)
      (other_allowances row) = Ok l /\
    r_breakdown r = breakdown_of l /\
    employees c' = employees c /\
    List.length (payslips c') = S (List.length (payslips c)).
Proof.
  unfold compute_pay, mbind, get_employee_by_code, lift, raise,
    insert_payslip, mret.
  destruct (find _ (employees c)) as [row|] eqn:Ef; [|discriminate].
  destruct (pay_amounts _ _ _ _) as [l|e] eqn:Ep; [|discriminate].
  intros [= <- <-]. exists row, l. cbn [r_breakdown employees payslips].
  repeat split; try assumption.
  rewrite length_app. cbn [List.length]. lia.
Qed.

(** ** The breakdown invariant *)

(** Amounts in cents that fit the context precision. *)
Lemma to_decimal_cents (x v : dec) :
  to_decimal x = Ok v -> exp v = -2 /\ Z.abs (coef v) < 10 ^ prec.
Proof. intros H. exact (quantize_range _ _ _ _ H). Qed.

Lemma quantize_cent_cents (x v : dec) :
  quantize_cent x = Ok v -> exp v = -2 /\ Z.abs (coef v) < 10 ^ prec.
Proof. intros H. exact (quantize_range _ _ _ _ H). Qed.

(** A sum (difference) of two amounts in cents, quantized: when it is
    returned it is exact. *)
Lemma quantize_cent_add (x y v : dec) :
  exp x = -2 -> exp y = -2 ->
  quantize_cent (add x y) = Ok v ->
  exp v = -2 /\ coef v = coef x + coef y.
Proof.
  destruct x as [cx ex], y as [cy ey]. cbn [coef exp].
  intros -> -> H. apply quantize_add_cents in H. subst v.
  split; reflexivity.
Qed.

Lemma quantize_cent_sub (x y v : dec) :
  exp x = -2 -> exp y = -2 ->
  quantize_cent (sub x y) = Ok v ->
  exp v = -2 /\ coef v = coef x - coef y.
Proof.
  destruct x as [cx ex], y as [cy ey]. cbn [coef exp].
  intros -> -> H. apply quantize_sub_cents in H. subst v.
  split; reflexivity.
Qed.

Lemma add_cents_exact (x y : dec) :
  exp x = -2 -> exp y = -2 -> Z.abs (coef x + coef y) < 10 ^ prec ->
  add x y = mkdec (coef x + coef y) (-2).
Proof.
  destruct x as [cx ex], y as [cy ey]. cbn [coef exp].
  intros -> -> H. apply add_cents_small. assumption.
Qed.

(** The gross sum: exact when the two partial sums fit the precision. *)
Lemma quantize_cent_gross (b h d o g : dec) :
  exp b = -2 -> exp h = -2 -> exp d = -2 -> exp o = -2 ->
  Z.abs (coef b + coef h) < 10 ^ prec ->
  Z.abs (coef b + coef h + coef d) < 10 ^ prec ->
  quantize_cent (add (add (add b h) d) o) = Ok g ->
  coef g = coef b + coef h + coef d + coef o.
Proof.
  intros Hb Hh Hd Ho F1 F2 H.
  rewrite (add_cents_exact b h Hb Hh F1) in H.
  rewrite (add_cents_exact (mkdec (coef b + coef h) (-2)) d eq_refl Hd F2) in H.
  apply quantize_cent_add in H; [|reflexivity|assumption].
  destruct H as [_ H]. exact H.
Qed.

Lemma pay_amounts_invariant (b0 h0 d0 o0 : dec) (l : pay_locals) :
  pay_amounts b0 h0 d0 o0 = Ok l ->
  in_cents (breakdown_of l) /\
  deductions_are_sum (breakdown_of l) /\
  net_is_difference (breakdown_of l) /\
  (partial_sums_fit (breakdown_of l) -> gross_is_sum (breakdown_of l)).
Proof.
  intros H. apply pay_amounts_ok in H.
  destruct H as (Eb & Eo & (hq & Eh) & (dq & Ed) & Eg & (pq & Ep) & _ & _ & _
                 & (mq & _ & Em) & Et & En).
  destruct (to_decimal_cents _ _ Eb) as [Xb _].
  destruct (to_decimal_cents _ _ Eo) as [Xo _].
  destruct (quantize_cent_cents _ _ Eh) as [Xh _].
  destruct (quantize_cent_cents _ _ Ed) as [Xd _].
  destruct (quantize_cent_cents _ _ Ep) as [Xp _].
  destruct (quantize_cent_cents _ _ Em) as [Xm _].
  destruct (quantize_cent_cents _ _ Eg) as [Xg _].
  destruct (quantize_cent_add _ _ _ Xp Xm Et) as [Xt St].
  destruct (quantize_cent_sub _ _ _ Xg Xt En) as [Xn Sn].
  split; [exact (conj Xb (conj Xh (conj Xd (conj Xo (conj Xg (conj Xp
            (conj Xm (conj Xt Xn))))))))|].
  split; [exact St|]. split; [exact Sn|].
  intros [F1 F2].
  exact (quantize_cent_gross _ _ _ _ _ Xb Xh Xd Xo F1 F2 Eg).
Qed.

(** ** Results of the pay computation *)

(** C1 (the code departs from the claim).  The inline
    [.quantize(Decimal('0.01'))] calls of [compute_pay] round with the
    context mode, half-even, not with the half-up mode of [to_decimal]:
    for basic = 10.0 and hra_percent = 0.25 the breakdown has hra = 0.02
    where half-up rounding of 10.00 * 0.25 / 100 = 0.0250 gives 0.03, and
    for basic = 25000.1 the annual tax 0.06 gives a monthly tax of 0.00
    where half-up rounding of 0.06 / 12 = 0.005 gives 0.01. *)
Theorem compute_pay_inline_rounding_is_half_even :
  (exists r c',
      compute_pay "E003" None sample_clock sample_conn = (Ok r, c') /\
      b_basic (r_breakdown r) = mkdec 1000 (-2) /\
      b_hra (r_breakdown r) = mkdec 2 (-2) /\
      div (mul (mkdec 1000 (-2)) (mkdec 25 (-2))) (of_Z 100)
      = Ok (mkdec 250 (-4)) /\
      round_money (mkdec 250 (-4)) = Ok (mkdec 3 (-2))) /\
  (exists l,
      pay_amounts (basic emp_tax_tie) (hra_percent emp_tax_tie)
        (da_percent emp_tax_tie) (other_allowances emp_tax_tie) = Ok l /\
      l_annual_tax l = mkdec 6 (-2) /\
      l_monthly_tax l = mkdec 0 (-2) /\
      div (mkdec 6 (-2)) (of_Z 12) = Ok (mkdec 5 (-3)) /\
      round_money (mkdec 5 (-3)) = Ok (mkdec 1 (-2))).
Proof.
  split.
  - eexists. eexists. split; [vm_compute; reflexivity|].
    repeat split; vm_compute; reflexivity.
  - eexists. split; [vm_compute; reflexivity|].
    repeat split; vm_compute; reflexivity.
Qed.

(** C2. For basic = 30000, hra_percent = 20, da_percent = 0 and other
    allowances 0, the computation gives hra = 6000.00, gross = 36000.00,
    pf = 3600.00, annual gross 432000, taxable annual 382000, annual tax
    6600.00, monthly tax 550.00, total deductions 4150.00 and net
    31850.00; [compute_pay] returns that breakdown and files it. *)
Theorem compute_pay_scenario :
  pay_amounts (mkdec 300000 (-1)) (mkdec 200 (-1)) (mkdec 0 (-1))
    (mkdec 0 (-1))
  = Ok scenario_locals /\
  compute_pay "E001" None sample_clock sample_conn
  = (Ok scenario_result, scenario_conn).
Proof.
  split; vm_compute; reflexivity.
Qed.

(** C4 (as stated, refuted).  A breakdown that [compute_pay] produces can
    miss [gross_salary = basic + hra + da + other_allowances] by a cent:
    with basic = hra_percent = da_percent = 77777777777777.77 and other
    allowances -9e+25 the partial sum basic + hra + da has 29 digits, the
    context rounds it to 28, and the later cancellation keeps the error. *)
Lemma breakdown_invariant_counterexample :
  exists r c',
    compute_pay "E005" None sample_clock sample_conn = (Ok r, c') /\
    b_basic (r_breakdown r) = mkdec 7777777777777777 (-2) /\
    b_hra (r_breakdown r) = mkdec 6049382716049381506172839506 (-2) /\
    b_da (r_breakdown r) = mkdec 6049382716049381506172839506 (-2) /\
    b_other_allowances (r_breakdown r)
    = mkdec (-9000000000000000000000000000) (-2) /\
    b_gross_salary (r_breakdown r)
    = mkdec 3098765432106540790123456790 (-2) /\
    7777777777777777 + 6049382716049381506172839506
    + 6049382716049381506172839506 + -9000000000000000000000000000
    = 3098765432106540790123456789 /\
    ~ breakdown_invariant (r_breakdown r).
Proof.
  eexists. eexists. split; [vm_compute; reflexivity|].
  cbn [r_breakdown].
  repeat (split; [reflexivity|]).
  intros (_ & Hg & _). vm_compute in Hg. discriminate Hg.
Qed.

(** C4 (amended).  Every breakdown [compute_pay] produces is in cents and
    satisfies [total_deductions = pf + tax] and
    [net_salary = gross_salary - total_deductions] exactly; it satisfies
    [gross_salary = basic + hra + da + other_allowances] exactly whenever
    the partial sums basic + hra and basic + hra + da fit the 28 digits of
    the arithmetic context (are below 10^26 in magnitude). *)
Theorem breakdown_invariant_within_precision
    (code : string) (month : option string) (clk : clock) (c c' : conn)
    (r : pay_result) :
  compute_pay code month clk c = (Ok r, c') ->
  in_cents (r_breakdown r) /\
  deductions_are_sum (r_breakdown r) /\
  net_is_difference (r_breakdown r) /\
  (partial_sums_fit (r_breakdown r) -> gross_is_sum (r_breakdown r)).
Proof.
  intros H. apply compute_pay_ok in H.
  destruct H as (row & l & _ & Hl & -> & _).
  exact (pay_amounts_invariant _ _ _ _ _ Hl).
Qed.

Lemma breakdown_invariant_within_precision_witness :
  compute_pay "E001" None sample_clock sample_conn
  = (Ok scenario_result, scenario_conn) /\
  partial_sums_fit (r_breakdown scenario_result) /\
  in_cents (r_breakdown scenario_result) /\
  deductions_are_sum (r_breakdown scenario_result) /\
  net_is_difference (r_breakdown scenario_result) /\
  gross_is_sum (r_breakdown scenario_result).
Proof.
  assert (E : compute_pay "E001" None sample_clock sample_conn
              = (Ok scenario_result, scenario_conn))
    by (vm_compute; reflexivity).
  assert (F : partial_sums_fit (r_breakdown scenario_result))
    by (split; reflexivity).
  destruct (breakdown_invariant_within_precision "E001" None sample_clock
              sample_conn scenario_conn scenario_result E)
    as (H1 & H2 & H3 & H4).
  exact (conj E (conj F (conj H1 (conj H2 (conj H3 (H4 F)))))).
Defined.

(** ** Unknown employee codes *)

Lemma find_absent {A : Type} (f : A -> bool) (l : list A) :
  (forall x, In x l -> f x = false) -> find f l = None.
Proof.
  induction l as [|a l IH]; intros H; [reflexivity|].
  cbn [find]. rewrite (H a (or_introl eq_refl)).
  apply IH. intros x Hx. apply H. right. assumption.
Qed.

(** C5. For every employee code that no row of the directory carries,
    [compute_pay] raises the not-found error (the [ValueError] with the
    message "Employee not found") and leaves the database as it was: no
    payslip row is appended. *)
Theorem compute_pay_unknown_employee
    (code : string) (month : option string) (clk : clock) (c : conn) :
  (forall e, In e (employees c) -> emp_code e <> code) ->
  compute_pay code month clk c
  = (Raise (ValueError "Employee not found"), c) /\
  List.length (payslips (snd (compute_pay code month clk c)))
  = List.length (payslips c).
Proof.
  intros Habs.
  assert (E : compute_pay code month clk c
              = (Raise (ValueError "Employee not found"), c)).
  { unfold compute_pay, mbind, get_employee_by_code.
    rewrite find_absent; [reflexivity|].
    intros e He. apply String.eqb_neq. apply Habs. assumption. }
  split; [exact E|]. rewrite E. reflexivity.
Qed.

Lemma compute_pay_unknown_employee_witness :
  compute_pay "E999" (Some "2024-05"%string) sample_clock sample_conn
  = (Raise (ValueError "Employee not found"), sample_conn) /\
  List.length
    (payslips (snd (compute_pay "E999" (Some "2024-05"%string) sample_clock
                      sample_conn)))
  = List.length (payslips sample_conn).
Proof.
  apply (compute_pay_unknown_employee "E999" (Some "2024-05"%string)
           sample_clock sample_conn).
  intros e He. simpl in He.
  destruct He as [<-|[<-|[<-|[<-|[<-|[]]]]]]; discriminate.
Defined.

(** ** Marginal tax at a ceiling *)

(** C6. At every ceiling of the table but the last, one more unit of
    income (a whole unit, or a cent) raises the tax accumulated before the
    final rounding by that unit times the rate of the next slab, and by
    nothing else: what lies in the lower slabs is taxed as before. *)
Theorem marginal_unit_above_ceiling
    (i : nat) (c r c' r' u : dec) :
  nth_error TAX_SLABS i = Some (c, r) ->
  nth_error TAX_SLABS (S i) = Some (c', r') ->
  u = of_Z 1 \/ u = cent ->
  eqb (sub (accumulated_tax (add c u)) (accumulated_tax c)) (mul u r') = true.
Proof.
  intros Hi Hi' Hu.
  destruct i as [|[|[|i]]]; cbn in Hi, Hi'.
  - injection Hi as <- <-. injection Hi' as <- <-.
    destruct Hu as [-> | ->]; vm_compute; reflexivity.
  - injection Hi as <- <-. injection Hi' as <- <-.
    destruct Hu as [-> | ->]; vm_compute; reflexivity.
  - injection Hi as <- <-. injection Hi' as <- <-.
    destruct Hu as [-> | ->]; vm_compute; reflexivity.
  - destruct i; discriminate Hi'.
Qed.

Lemma marginal_unit_above_ceiling_witness :
  eqb (sub (accumulated_tax (add (of_Z 500000) (of_Z 1)))
         (accumulated_tax (of_Z 500000)))
      (mul (of_Z 1) (mkdec 2 (-1))) = true.
Proof.
  apply (marginal_unit_above_ceiling 1 (of_Z 500000) (mkdec 5 (-2))
           (of_Z 1000000) (mkdec 2 (-1)) (of_Z 1)).
  - reflexivity.
  - reflexivity.
  - left. reflexivity.
Defined.

(** ** Rounding to cents, half up *)

(** An exact half, [(10 * q + 5) * 10 ^ k] units of [10 ^ (-3 - k)], goes
    to the larger magnitude, whatever the sign [sg]. *)
Lemma to_decimal_tie (sg q k : Z) :
  sg = 1 \/ sg = -1 -> 0 <= q -> q + 1 < 10 ^ prec -> 0 <= k ->
  to_decimal (mkdec (sg * ((10 * q + 5) * 10 ^ k)) (-3 - k))
  = Ok (mkdec (sg * (q + 1)) (-2)).
Proof.
  intros Hsg Hq Hq1 Hk.
  pose proof (pow10_pos k Hk) as Hpk.
  set (c := (10 * q + 5) * 10 ^ k).
  assert (Hc : 0 < c) by (unfold c; nia).
  assert (Habs : Z.abs (sg * c) = c) by (destruct Hsg as [-> | ->]; lia).
  assert (Hsgn : Z.sgn (sg * c) = sg) by (destruct Hsg as [-> | ->]; lia).
  assert (Hp1 : 10 ^ (k + 1) = 10 * 10 ^ k) by (apply pow10_succ; assumption).
  assert (Hnd : ndigits (sg * c) <= 29 + k).
  { apply ndigits_le_iff; [lia|]. rewrite Habs.
    replace (29 + k) with (prec + 1 + k) by (unfold prec; lia).
    rewrite Z.pow_add_r by (unfold prec; lia).
    rewrite pow10_succ by (unfold prec; lia). unfold c. nia. }
  unfold to_decimal, quantize. cbn [coef exp cent].
  destruct (Z.eqb_spec (sg * c) 0) as [E|_]; [lia|].
  unfold adjusted. cbn [coef exp].
  destruct (Z.ltb_spec prec (-3 - k + ndigits (sg * c) - 1 - -2 + 1)) as [|_];
    [unfold prec in *; lia|].
  unfold _rescale. cbn [coef exp].
  destruct (Z.eqb_spec (sg * c) 0) as [E|_]; [lia|].
  destruct (Z.leb_spec (-2) (-3 - k)) as [|_]; [lia|].
  rewrite Habs, Hsgn. replace (-2 - (-3 - k)) with (k + 1) by lia.
  assert (Hdiv : c / 10 ^ (k + 1) = q).
  { symmetry. apply (Z.div_unique c (10 ^ (k + 1)) q (5 * 10 ^ k)).
    - left. lia.
    - unfold c. lia. }
  assert (Hmod : c mod 10 ^ (k + 1) = 5 * 10 ^ k).
  { symmetry. apply (Z.mod_unique c (10 ^ (k + 1)) q (5 * 10 ^ k)).
    - left. lia.
    - unfold c. lia. }
  assert (Hr : round_mag ROUND_HALF_UP c (k + 1) = q + 1).
  { unfold round_mag. rewrite Hdiv, Hmod.
    destruct (Z.leb_spec (10 ^ (k + 1)) (2 * (5 * 10 ^ k))); [reflexivity|lia]. }
  rewrite Hr. cbn [coef].
  assert (Hsmall : Z.abs (sg * (q + 1)) < 10 ^ prec)
    by (destruct Hsg as [-> | ->]; lia).
  pose proof (proj2 (ndigits_le_iff (sg * (q + 1)) prec
                       ltac:(unfold prec; lia)) Hsmall) as Hn.
  destruct (Z.ltb_spec prec (ndigits (sg * (q + 1)))) as [|_]; [lia|].
  rewrite fix_small by assumption. reflexivity.
Qed.

(** Rounding what is already rounded changes nothing. *)
Lemma to_decimal_fixpoint (x v : dec) :
  to_decimal x = Ok v -> to_decimal v = Ok v.
Proof.
  intros H. unfold to_decimal in H.
  apply quantize_cent_shape in H. destruct H as (c & -> & Hc).
  apply quantize_cents_id. assumption.
Qed.

(** C7. [to_decimal] (the rounding utility [round_money]) works on the
    exact decimal numeral of its input (2.005 is 2005 thousandths, no
    binary fraction is involved), rounds to two fractional digits, and
    sends an exact half to the larger magnitude, for either sign: 2.005
    gives 2.01, not 2.00.  It is idempotent: rounding its result again
    gives the same outcome, also when the outcome is an exception. *)
Theorem to_decimal_half_up_idempotent :
  to_decimal (mkdec 2005 (-3)) = Ok (mkdec 201 (-2)) /\
  (forall sg q k : Z,
      sg = 1 \/ sg = -1 -> 0 <= q -> q + 1 < 10 ^ prec -> 0 <= k ->
      to_decimal (mkdec (sg * ((10 * q + 5) * 10 ^ k)) (-3 - k))
      = Ok (mkdec (sg * (q + 1)) (-2))) /\
  (forall x : dec, bind (to_decimal x) to_decimal = to_decimal x) /\
  (forall x : dec, round_money x = to_decimal x).
Proof.
  split; [vm_compute; reflexivity|].
  split; [exact to_decimal_tie|].
  split; [|reflexivity].
  intros x. remember (to_decimal x) as r eqn:E.
  destruct r as [v|e]; cbn [bind]; [|reflexivity].
  apply (to_decimal_fixpoint x). symmetry. exact E.
Qed.

Lemma to_decimal_half_up_idempotent_witness :
  to_decimal (mkdec (-1 * ((10 * 200 + 5) * 10 ^ 0)) (-3 - 0))
  = Ok (mkdec (-1 * (200 + 1)) (-2)).
Proof.
  apply (proj1 (proj2 to_decimal_half_up_idempotent) (-1) 200 0).
  - right. reflexivity.
  - lia.
  - reflexivity.
  - lia.
Defined.

(** ** The clamp on the taxable amount *)

Lemma max_zero_not_negative (x : dec) :
  ltb (Decimal.max (of_Z 0) x) (of_Z 0) = false.
Proof.
  unfold Decimal.max. remember (ltb (of_Z 0) x) as b eqn:E.
  destruct b.
  - apply ltb_asym. symmetry. exact E.
  - reflexivity.
Qed.

(** C8. For every profile the taxable annual amount is
    [max(0, annual_gross - 50000)], with [annual_gross = gross * 12]; it is
    never negative, and it is what the tax calculator is called on (the
    clamp [max(0, x)] is not negative for any [x], so this holds also in a
    run that raises later).  The all-zero profile gives taxable annual 0,
    tax 0 and net 0, and raises nothing. *)
Theorem taxable_annual_clamped :
  (forall (b0 h0 d0 o0 : dec) (l : pay_locals),
      pay_amounts b0 h0 d0 o0 = Ok l ->
      l_annual_gross l = mul (l_gross l) (of_Z 12) /\
      l_taxable_ann l
      = Decimal.max (of_Z 0) (sub (l_annual_gross l) (of_Z 50000)) /\
      ltb (l_taxable_ann l) (of_Z 0) = false /\
      income_tax_annually (l_taxable_ann l) = Ok (l_annual_tax l)) /\
  (forall x : dec, ltb (Decimal.max (of_Z 0) x) (of_Z 0) = false) /\
  pay_amounts (mkdec 0 (-1)) (mkdec 0 (-1)) (mkdec 0 (-1)) (mkdec 0 (-1))
  = Ok zero_locals /\
  fst (compute_pay "E002" None sample_clock sample_conn)
  = Ok (mkpay_result "E002" "Bina" "Trainee" "2024-05"
          (breakdown_of zero_locals)).
Proof.
  split; [|split; [exact max_zero_not_negative|split; vm_compute; reflexivity]].
  intros b0 h0 d0 o0 l H. apply pay_amounts_ok in H.
  destruct H as (_ & _ & _ & _ & _ & _ & Hag & Hta & Htax & _).
  split; [exact Hag|]. split; [exact Hta|]. split; [|exact Htax].
  rewrite Hta. apply max_zero_not_negative.
Qed.

Lemma taxable_annual_clamped_witness :
  l_taxable_ann zero_locals
  = Decimal.max (of_Z 0) (sub (l_annual_gross zero_locals) (of_Z 50000)) /\
  ltb (l_taxable_ann zero_locals) (of_Z 0) = false.
Proof.
  destruct (proj1 taxable_annual_clamped (mkdec 0 (-1)) (mkdec 0 (-1))
              (mkdec 0 (-1)) (mkdec 0 (-1)) zero_locals)
    as (_ & H1 & H2 & _).
  - vm_compute. reflexivity.
  - split; [exact H1|exact H2].
Defined.

(** * Further properties *)

(** ** Half-up rounding in closed form *)

Lemma round_mag_half_up (m s : Z) :
  0 <= m -> 0 <= s ->
  round_mag ROUND_HALF_UP m s = (2 * m + 10 ^ s) / (2 * 10 ^ s).
Proof.
  intros Hm Hs. unfold round_mag. cbv zeta.
  pose proof (pow10_pos s Hs) as Hp.
  pose proof (Z.div_mod m (10 ^ s) ltac:(lia)) as Hdm.
  pose proof (Z.mod_pos_bound m (10 ^ s) Hp) as Hmb.
  set (q := m / 10 ^ s) in *. set (r := m mod 10 ^ s) in *.
  destruct (Z.leb_spec (10 ^ s) (2 * r)).
  - apply (Z.div_unique _ _ (q + 1) (2 * r - 10 ^ s)); [left; lia|]. lia.
  - apply (Z.div_unique _ _ q (2 * r + 10 ^ s)); [left; lia|]. lia.
Qed.

(** [to_decimal] on a non-negative amount with [k] digits beyond the
    cents. *)
Lemma to_decimal_finer (m k : Z) :
  0 <= m < 10 ^ prec -> 1 <= k ->
  to_decimal (mkdec m (-2 - k))
  = Ok (mkdec ((2 * m + 10 ^ k) / (2 * 10 ^ k)) (-2)).
Proof.
  intros Hm Hk.
  pose proof (pow10_pos k ltac:(lia)) as Hp.
  assert (Hp10 : 10 <= 10 ^ k).
  { change 10 with (10 ^ 1) at 1. apply Z.pow_le_mono_r; lia. }
  set (v := (2 * m + 10 ^ k) / (2 * 10 ^ k)).
  assert (Hv : 0 <= v < 10 ^ prec).
  { unfold v. split.
    - apply Z.div_pos; lia.
    - apply Z.div_lt_upper_bound; [lia|]. nia. }
  unfold to_decimal, quantize. cbn [coef exp cent].
  destruct (Z.eqb_spec m 0) as [->|Hnz].
  { assert (Ev : v = 0).
    { unfold v. apply Z.div_small. lia. }
    rewrite Ev. reflexivity. }
  assert (Hnd : ndigits m <= prec).
  { apply ndigits_le_iff; [unfold prec; lia|]. lia. }
  unfold adjusted. cbn [coef exp].
  destruct (Z.ltb_spec prec (-2 - k + ndigits m - 1 - -2 + 1)) as [|_]; [lia|].
  unfold _rescale. cbn [coef exp].
  destruct (Z.eqb_spec m 0) as [|_]; [contradiction|].
  destruct (Z.leb_spec (-2) (-2 - k)) as [|_]; [lia|].
  rewrite Z.sgn_pos, Z.abs_eq, Z.mul_1_l by lia.
  replace (-2 - (-2 - k)) with k by lia.
  rewrite round_mag_half_up by lia. fold v. cbn [coef].
  assert (Hnv : ndigits v <= prec).
  { apply ndigits_le_iff; [unfold prec; lia|]. lia. }
  destruct (Z.ltb_spec prec (ndigits v)) as [|_]; [lia|].
  rewrite fix_small by lia. reflexivity.
Qed.

(** ** A slab that the income ends in *)

Lemma cents_above (L n : Z) :
  L * 100 < n -> ltb (of_Z L) (mkdec n (-2)) = true.
Proof.
  intros H. apply ltb_true_iff. cbn [coef exp of_Z].
  change (Z.min 0 (-2)) with (-2). change (10 ^ (0 - -2)) with 100.
  change (10 ^ (-2 - -2)) with 1. lia.
Qed.

Lemma cents_not_above (L n : Z) :
  n <= L * 100 -> leb (mkdec n (-2)) (of_Z L) = true.
Proof.
  intros H. apply leb_true_iff. cbn [coef exp of_Z].
  change (Z.min (-2) 0) with (-2). change (10 ^ (0 - -2)) with 100.
  change (10 ^ (-2 - -2)) with 1. lia.
Qed.

Lemma sub_cents_int (n P : Z) :
  Z.abs (n - P * 100) < 10 ^ prec ->
  sub (mkdec n (-2)) (of_Z P) = mkdec (n - P * 100) (-2).
Proof.
  intros H. unfold sub, add, copy_negate, of_Z. cbn [coef exp].
  change (Z.min (-2) 0) with (-2). change (10 ^ (0 - -2)) with 100.
  change (10 ^ (-2 - -2)) with 1.
  replace (n * 1 + - P * 100) with (n - P * 100) by lia.
  apply fix_small. assumption.
Qed.

(** The slab the income ends in: taxed on the part of the income above the
    previous ceiling, and the loop is left. *)
Lemma tax_loop_step_inside (L P n : Z) (r : dec) (rest : list (dec * dec))
    (tax : dec) :
  0 <= P < L -> L < 10 ^ (prec - 2) -> P * 100 < n <= L * 100 ->
  tax_loop ((of_Z L, r) :: rest) tax (of_Z P) (mkdec n (-2))
  = add tax (mul (if n <? L * 100 then mkdec (n - P * 100) (-2)
                  else mkdec (L - P) 0) r).
Proof.
  intros HP HL Hn. pose proof pow10_prec_chain as (C0 & C1 & C2 & C3).
  cbn [tax_loop]. rewrite sub_of_Z by lia. rewrite sub_cents_int by lia.
  assert (Hmin : Decimal.min (mkdec (L - P) 0) (mkdec (n - P * 100) (-2))
                 = if n <? L * 100 then mkdec (n - P * 100) (-2)
                   else mkdec (L - P) 0).
  { unfold Decimal.min.
    destruct (Z.ltb_spec n (L * 100)) as [Hlt|Hge].
    - replace (ltb _ _) with true; [reflexivity|].
      symmetry. apply ltb_true_iff. cbn [coef exp].
      change (Z.min (-2) 0) with (-2). change (10 ^ (0 - -2)) with 100.
      change (10 ^ (-2 - -2)) with 1. lia.
    - replace (ltb _ _) with false; [reflexivity|].
      symmetry. apply ltb_false_iff. cbn [coef exp].
      change (Z.min (-2) 0) with (-2). change (10 ^ (0 - -2)) with 100.
      change (10 ^ (-2 - -2)) with 1. lia. }
  rewrite Hmin.
  assert (Hpos : leb (if n <? L * 100 then mkdec (n - P * 100) (-2)
                      else mkdec (L - P) 0) (of_Z 0) = false).
  { apply leb_pos_zero. destruct (n <? L * 100); cbn [coef]; lia. }
  rewrite Hpos. rewrite cents_not_above by lia. reflexivity.
Qed.

Lemma mul_cents_rate (n c e : Z) :
  Z.abs (n * c) < 10 ^ prec ->
  mul (mkdec n (-2)) (mkdec c e) = mkdec (n * c) (-2 + e).
Proof. intros H. unfold mul. cbn [coef exp]. apply fix_small. assumption. Qed.

Lemma add_m1_m4 (a b : Z) :
  Z.abs (a * 1000 + b) < 10 ^ prec ->
  add (mkdec a (-1)) (mkdec b (-4)) = mkdec (a * 1000 + b) (-4).
Proof.
  intros H. unfold add. cbn [coef exp].
  change (Z.min (-1) (-4)) with (-4).
  change (10 ^ (-1 - -4)) with 1000. change (10 ^ (-4 - -4)) with 1.
  rewrite Z.mul_1_r. apply fix_small. assumption.
Qed.

Lemma add_m2_m3 (a b : Z) :
  Z.abs (a * 10 + b) < 10 ^ prec ->
  add (mkdec a (-2)) (mkdec b (-3)) = mkdec (a * 10 + b) (-3).
Proof.
  intros H. unfold add. cbn [coef exp].
  change (Z.min (-2) (-3)) with (-3).
  change (10 ^ (-2 - -3)) with 10. change (10 ^ (-3 - -3)) with 1.
  rewrite Z.mul_1_r. apply fix_small. assumption.
Qed.

Lemma half_up_halves (m p : Z) :
  0 < p -> (2 * m + 2 * p) / (2 * (2 * p)) = (m + p) / (2 * p).
Proof.
  intros Hp. replace (2 * m + 2 * p) with (2 * (m + p)) by lia.
  apply Z.div_mul_cancel_l; lia.
Qed.

(** The tax accumulated when the loop reaches the second, third and
    fourth slab. *)
Lemma tax_after_slab_1 :
  add (of_Z 0) (mul (mkdec (250000 - 0) 0) (mkdec 0 (-1))) = mkdec 0 (-1).
Proof. vm_compute. reflexivity. Qed.

Lemma tax_after_slab_2 :
  add (mkdec 0 (-1)) (mul (mkdec (500000 - 250000) 0) (mkdec 5 (-2)))
  = mkdec 1250000 (-2).
Proof. vm_compute. reflexivity. Qed.

Lemma tax_after_slab_3 :
  add (mkdec 1250000 (-2)) (mul (mkdec (1000000 - 500000) 0) (mkdec 2 (-1)))
  = mkdec 11250000 (-2).
Proof. vm_compute. reflexivity. Qed.

Lemma income_tax_annually_cents_eq (n : Z) :
  income_tax_annually (mkdec n (-2)) = Ok (mkdec (tax_cents n) (-2)).
Proof.
  pose proof pow10_prec_chain as (C0 & C1 & C2 & C3).
  assert (B26 : 10 ^ (prec - 2) = 100000000000000000000000000) by reflexivity.
  assert (B28 : 10 ^ prec = 10000000000000000000000000000) by reflexivity.
  unfold income_tax_annually, accumulated_tax, tax_cents.
  destruct (Z.leb_spec n 25000000) as [H1|H1].
  { destruct (Z.le_gt_cases n 0) as [H0|H0].
    - rewrite (tax_loop_nonpos TAX_SLABS 0 (of_Z 0) _ ltac:(lia)
                 TAX_SLABS_ascending); [reflexivity|exact H0].
    - unfold TAX_SLABS. rewrite tax_loop_step_inside by lia.
      destruct (Z.ltb_spec n (250000 * 100)) as [Hlt|Hge].
      + rewrite mul_cents_rate by (rewrite Z.mul_0_r; lia).
        rewrite Z.mul_0_r. reflexivity.
      + reflexivity. }
  unfold TAX_SLABS.
  rewrite tax_loop_step_above by first [lia | apply cents_above; lia].
  rewrite tax_after_slab_1.
  destruct (Z.leb_spec n 50000000) as [H2|H2].
  { rewrite tax_loop_step_inside by lia.
    destruct (Z.ltb_spec n (500000 * 100)) as [Hlt|Hge].
    - rewrite mul_cents_rate by lia.
      change (-2 + -2) with (-4).
      rewrite add_m1_m4 by lia.
      change (-4) with (-2 - 2).
      rewrite to_decimal_finer by lia.
      do 2 f_equal. change (10 ^ 2) with (2 * 50).
      replace (2 * (0 * 1000 + (n - 250000 * 100) * 5))
        with (2 * (5 * (n - 25000000))) by lia.
      apply half_up_halves. lia.
    - assert (n = 50000000) by lia. subst n. vm_compute. reflexivity. }
  rewrite tax_loop_step_above by first [lia | apply cents_above; lia].
  rewrite tax_after_slab_2.
  destruct (Z.leb_spec n 100000000) as [H3|H3].
  { rewrite tax_loop_step_inside by lia.
    destruct (Z.ltb_spec n (1000000 * 100)) as [Hlt|Hge].
    - rewrite mul_cents_rate by lia.
      change (-2 + -1) with (-3).
      rewrite add_m2_m3 by lia.
      change (-3) with (-2 - 1).
      rewrite to_decimal_finer by lia.
      do 2 f_equal. change (10 ^ 1) with (2 * 5).
      replace (2 * (1250000 * 10 + (n - 500000 * 100) * 2))
        with (2 * (12500000 + 2 * (n - 50000000))) by lia.
      apply half_up_halves. lia.
    - assert (n = 100000000) by lia. subst n. vm_compute. reflexivity. }
  rewrite tax_loop_step_above by first [lia | apply cents_above; lia].
  rewrite tax_after_slab_3.
  destruct (Z.leb_spec n 99999999900) as [H4|H4].
  { rewrite tax_loop_step_inside by lia.
    destruct (Z.ltb_spec n (999999999 * 100)) as [Hlt|Hge].
    - rewrite mul_cents_rate by lia.
      change (-2 + -1) with (-3).
      rewrite add_m2_m3 by lia.
      change (-3) with (-2 - 1).
      rewrite to_decimal_finer by lia.
      do 2 f_equal. change (10 ^ 1) with (2 * 5).
      replace (2 * (11250000 * 10 + (n - 1000000 * 100) * 3))
        with (2 * (112500000 + 3 * (n - 100000000))) by lia.
      apply half_up_halves. lia.
    - assert (n = 99999999900) by lia. subst n. vm_compute. reflexivity. }
  rewrite tax_loop_step_above by first [lia | apply cents_above; lia].
  vm_compute. reflexivity.
Qed.

(** X1. The annual tax on an income of [n] cents is [tax_cents n] cents:
    nothing up to 250000.00, then 5%, 20% and 30% of the part of the
    income inside each slab, rounded half up to the cent once, and the tax
    of 999999999.00 above the last ceiling. *)
Theorem income_tax_annually_cents (n : Z) :
  income_tax_annually (mkdec n (-2)) = Ok (mkdec (tax_cents n) (-2)).
Proof. exact (income_tax_annually_cents_eq n). Qed.

Ltac tax_cases n :=
  unfold tax_cents;
  destruct (Z.leb_spec n 25000000); [|
  destruct (Z.leb_spec n 50000000); [|
  destruct (Z.leb_spec n 100000000); [|
  destruct (Z.leb_spec n 99999999900)]]].

Lemma tax_cents_monotone (n n' : Z) : n <= n' -> tax_cents n <= tax_cents n'.
Proof.
  intros H. tax_cases n; tax_cases n'; try lia;
    Z.div_mod_to_equations; lia.
Qed.

Lemma tax_cents_bounds (n : Z) :
  0 <= tax_cents n /\ (0 <= n -> 10 * tax_cents n <= 3 * n).
Proof.
  tax_cases n; split; intros; Z.div_mod_to_equations; lia.
Qed.

Lemma tax_cents_marginal (n n' : Z) :
  n <= n' -> 10 * (tax_cents n' - tax_cents n) <= 3 * (n' - n) + 9.
Proof.
  intros H. tax_cases n; tax_cases n'; try lia;
    Z.div_mod_to_equations; lia.
Qed.

(** ** Amounts with at most two fractional digits *)

Lemma to_decimal_two_places (c e : Z) :
  -2 <= e ->
  to_decimal (mkdec c e)
  = if Z.abs (c * 10 ^ (e + 2)) <? 10 ^ prec
    then Ok (mkdec (c * 10 ^ (e + 2)) (-2))
    else Raise InvalidOperation.
Proof.
  intros He. pose proof (pow10_pos (e + 2) ltac:(lia)) as Hp.
  unfold to_decimal, quantize. cbn [coef exp cent].
  destruct (Z.eqb_spec c 0) as [->|Hnz].
  { rewrite Z.mul_0_l. reflexivity. }
  pose proof (ndigits_scale c (e + 2) Hnz ltac:(lia)) as Hnd.
  pose proof (ndigits_le_iff (c * 10 ^ (e + 2)) prec
                ltac:(unfold prec; lia)) as Hiff.
  unfold adjusted, _rescale. cbn [coef exp].
  destruct (Z.eqb_spec c 0) as [|_]; [contradiction|].
  destruct (Z.leb_spec (-2) e) as [_|]; [|lia].
  replace (e - -2) with (e + 2) by lia. cbn [coef].
  destruct (Z.ltb_spec (Z.abs (c * 10 ^ (e + 2))) (10 ^ prec)) as [Hfit|Hbig].
  - destruct (Z.ltb_spec prec (e + ndigits c - 1 - -2 + 1)) as [|_]; [lia|].
    destruct (Z.ltb_spec prec (ndigits (c * 10 ^ (e + 2)))) as [|_]; [lia|].
    rewrite fix_small by assumption. reflexivity.
  - destruct (Z.ltb_spec prec (e + ndigits c - 1 - -2 + 1)) as [|]; [reflexivity|].
    lia.
Qed.

(** X5. [to_decimal] keeps an amount with at most two fractional digits
    exactly, written in cents, or raises [InvalidOperation] when the
    amount in cents does not fit 28 digits (magnitude 10^26 or more). *)
Theorem to_decimal_exact_or_reject (c e : Z) :
  -2 <= e ->
  to_decimal (mkdec c e)
  = if Z.abs (c * 10 ^ (e + 2)) <? 10 ^ prec
    then Ok (mkdec (c * 10 ^ (e + 2)) (-2))
    else Raise InvalidOperation.
Proof. exact (to_decimal_two_places c e). Qed.

(** ** What [compute_pay] does to the database *)

(** X6. When [compute_pay] raises, whatever the exception, the database is
    left as it was: nothing is written before the last step. *)
Theorem compute_pay_raise_unchanged (code : string) (month : option string)
    (clk : clock) (c c' : conn) (e : exn) :
  compute_pay code month clk c = (Raise e, c') -> c' = c.
Proof.
  unfold compute_pay, mbind, get_employee_by_code, lift, raise,
    insert_payslip, mret.
  destruct (find _ (employees c)) as [row|].
  - destruct (pay_amounts _ _ _ _) as [l|e'].
    + discriminate.
    + intros [= _ <-]. reflexivity.
  - intros [= _ <-]. reflexivity.
Qed.


Lemma to_decimal_exact_or_reject_witness :
  to_decimal (mkdec 300000 (-1)) = Ok (mkdec 3000000 (-2)) /\
  to_decimal (mkdec 1 26) = Raise InvalidOperation.
Proof.
  split.
  - rewrite (to_decimal_exact_or_reject 300000 (-1)) by lia. reflexivity.
  - rewrite (to_decimal_exact_or_reject 1 26) by lia. reflexivity.
Defined.

Lemma compute_pay_raise_unchanged_witness :
  snd (compute_pay "E100" None sample_clock overflow_conn) = overflow_conn.
Proof.
  apply (compute_pay_raise_unchanged "E100" None sample_clock overflow_conn
           _ InvalidOperation).
  vm_compute. reflexivity.
Defined.


(** X8. A row whose basic salary is 10^26 or more in magnitude (with at
    most two fractional digits) makes [compute_pay] raise
    [InvalidOperation], and nothing is written. *)
Theorem compute_pay_rejects_huge_basic (code : string)
    (month : option string) (clk : clock) (c : conn) (row : employee) :
  find (fun e => String.eqb (emp_code e) code) (employees c) = Some row ->
  -2 <= exp (basic row) ->
  10 ^ prec <= Z.abs (coef (basic row) * 10 ^ (exp (basic row) + 2)) ->
  compute_pay code month clk c = (Raise InvalidOperation, c).
Proof.
  intros Hf He Hbig.
  unfold compute_pay, mbind, get_employee_by_code, lift. rewrite Hf.
  unfold pay_amounts. destruct (basic row) as [cb eb]. cbn [coef exp] in *.
  rewrite (to_decimal_two_places cb eb He).
  destruct (Z.ltb_spec (Z.abs (cb * 10 ^ (eb + 2))) (10 ^ prec)); [lia|].
  reflexivity.
Qed.

Lemma compute_pay_rejects_huge_basic_witness :
  compute_pay "E100" None sample_clock overflow_conn
  = (Raise InvalidOperation, overflow_conn).
Proof.
  apply (compute_pay_rejects_huge_basic "E100" None sample_clock
           overflow_conn emp_overflow).
  - reflexivity.
  - cbn. lia.
  - vm_compute. discriminate.
Defined.

(** X2. The annual tax does not decrease when the income (in cents)
    grows. *)
Theorem income_tax_annually_monotone (n n' : Z) :
  n <= n' ->
  exists a a',
    income_tax_annually (mkdec n (-2)) = Ok (mkdec a (-2)) /\
    income_tax_annually (mkdec n' (-2)) = Ok (mkdec a' (-2)) /\
    a <= a'.
Proof.
  intros H. exists (tax_cents n), (tax_cents n').
  split; [apply income_tax_annually_cents_eq|].
  split; [apply income_tax_annually_cents_eq|].
  apply tax_cents_monotone. assumption.
Qed.

Lemma income_tax_annually_monotone_witness :
  exists a a',
    income_tax_annually (mkdec 38200000 (-2)) = Ok (mkdec a (-2)) /\
    income_tax_annually (mkdec 60000000 (-2)) = Ok (mkdec a' (-2)) /\
    a <= a'.
Proof.
  apply (income_tax_annually_monotone 38200000 60000000). lia.
Defined.

(** X3. The annual tax on an income in cents is never negative, and on a
    non-negative income it is at most 30% of the income. *)
Theorem income_tax_annually_bounds (n : Z) :
  exists a,
    income_tax_annually (mkdec n (-2)) = Ok (mkdec a (-2)) /\
    0 <= a /\ (0 <= n -> 10 * a <= 3 * n).
Proof.
  exists (tax_cents n). split; [apply income_tax_annually_cents_eq|].
  apply tax_cents_bounds.
Qed.

Lemma income_tax_annually_bounds_witness :
  exists a,
    income_tax_annually (mkdec 38200000 (-2)) = Ok (mkdec a (-2)) /\
    0 <= a /\ 10 * a <= 3 * 38200000.
Proof.
  destruct (income_tax_annually_bounds 38200000) as (a & E & H0 & H1).
  exists a. split; [exact E|]. split; [exact H0|]. apply H1. lia.
Defined.

(** X4. No cliff: when the income grows by some amount, the annual tax
    grows by at most 30% of that amount, up to the cent of the final
    rounding. *)
Theorem income_tax_annually_marginal (n n' : Z) :
  n <= n' ->
  exists a a',
    income_tax_annually (mkdec n (-2)) = Ok (mkdec a (-2)) /\
    income_tax_annually (mkdec n' (-2)) = Ok (mkdec a' (-2)) /\
    10 * (a' - a) <= 3 * (n' - n) + 9.
Proof.
  intros H. exists (tax_cents n), (tax_cents n').
  split; [apply income_tax_annually_cents_eq|].
  split; [apply income_tax_annually_cents_eq|].
  apply tax_cents_marginal. assumption.
Qed.

Lemma income_tax_annually_marginal_witness :
  exists a a',
    income_tax_annually (mkdec 49999900 (-2)) = Ok (mkdec a (-2)) /\
    income_tax_annually (mkdec 50000100 (-2)) = Ok (mkdec a' (-2)) /\
    10 * (a' - a) <= 3 * (50000100 - 49999900) + 9.
Proof.
  apply (income_tax_annually_marginal 49999900 50000100). lia.
Defined.

(** ** The employee directory: lookups and writes *)

Lemma get_employee_by_code_find (code : string) (c : conn) :
  get_employee_by_code code c = (Ok (find (has_code code) (employees c)), c).
Proof. reflexivity. Qed.

Lemma find_app_last {A : Type} (f : A -> bool) (l : list A) (x : A) :
  find f (l ++ [x])
  = match find f l with
    | Some y => Some y
    | None => if f x then Some x else None
    end.
Proof.
  induction l as [|a l IH]; cbn [app find].
  - destruct (f x); reflexivity.
  - destruct (f a); [reflexivity|exact IH].
Qed.

Lemma existsb_find_none {A : Type} (f : A -> bool) (l : list A) :
  existsb f l = false <-> find f l = None.
Proof.
  induction l as [|a l IH]; cbn [existsb find]; [tauto|].
  destruct (f a); cbn [orb]; [split; discriminate|exact IH].
Qed.

Lemma has_code_same (e : employee) : has_code (emp_code e) e = true.
Proof. unfold has_code. apply String.eqb_refl. Qed.

Lemma has_code_other (code other : string) (e : employee) :
  other <> code -> has_code code e = true -> has_code other e = false.
Proof.
  unfold has_code. intros Hne H. apply String.eqb_eq in H.
  apply String.eqb_neq. congruence.
Qed.

Lemma find_has_code (code : string) (l : list employee) (e : employee) :
  find (has_code code) l = Some e -> In e l /\ emp_code e = code.
Proof.
  intros H. apply find_some in H. destruct H as [Hin Hc].
  split; [assumption|]. apply String.eqb_eq. exact Hc.
Qed.

(** ** Adding *)

Lemma add_employee_fresh (code name0 desig : string) (b h a x : dec)
    (d : database) :
  get_employee_by_code code (tables d) = (Ok None, tables d) ->
  let d' := fst (add_employee code name0 desig b h a x d) in
  let row := mkemployee (next_employee_id d) code name0 desig b h a x in
  snd (add_employee code name0 desig b h a x d) = ["Employee added."%string] /\
  get_employee_by_code code (tables d') = (Ok (Some row), tables d') /\
  (forall other, other <> code ->
     fst (get_employee_by_code other (tables d'))
     = fst (get_employee_by_code other (tables d))) /\
  employees (tables d') = (employees (tables d) ++ [row])%list /\
  payslips (tables d') = payslips (tables d) /\
  employees_seq d' = next_employee_id d.
Proof.
  rewrite get_employee_by_code_find. intros [= Hnone].
  pose proof (proj2 (existsb_find_none _ _) Hnone) as Hex.
  unfold add_employee. rewrite Hex. cbn [fst snd tables employees payslips
    employees_seq]. cbv zeta.
  split; [reflexivity|]. split.
  - rewrite get_employee_by_code_find. cbn [employees].
    rewrite find_app_last, Hnone.
    unfold has_code at 1. cbn [emp_code]. rewrite String.eqb_refl.
    reflexivity.
  - split; [|repeat split; reflexivity].
    intros other Hne. rewrite !get_employee_by_code_find. cbn [fst employees].
    rewrite find_app_last.
    destruct (find (has_code other) (employees (tables d))); [reflexivity|].
    unfold has_code. cbn [emp_code].
    destruct (String.eqb_spec code other); [congruence|reflexivity].
Qed.

Lemma add_employee_duplicate_eq (code name0 desig : string) (b h a x : dec)
    (d : database) (e : employee) :
  get_employee_by_code code (tables d) = (Ok (Some e), tables d) ->
  add_employee code name0 desig b h a x d
  = (d, ["Error: emp_code must be unique."%string]).
Proof.
  rewrite get_employee_by_code_find. intros [= Hsome].
  unfold add_employee.
  destruct (existsb (has_code code) (employees (tables d))) eqn:Hex;
    [reflexivity|].
  apply existsb_find_none in Hex. congruence.
Qed.

(** ** Updating *)


Lemma map_patch_absent (code : string) (k : employee_patch)
    (l : list employee) :
  find (has_code code) l = None ->
  map (fun e => if has_code code e then apply_patch k e else e) l = l.
Proof.
  induction l as [|a l IH]; cbn [map find]; [reflexivity|].
  destruct (has_code code a); [discriminate|].
  intros H. rewrite (IH H). reflexivity.
Qed.


(** ** Deleting *)

Lemma find_filter_other (code other : string) (l : list employee) :
  find (has_code other) (filter (fun e => negb (has_code code e)) l)
  = if String.eqb other code then None else find (has_code other) l.
Proof.
  induction l as [|a l IH]; cbn [filter find].
  - destruct (String.eqb other code); reflexivity.
  - destruct (has_code code a) eqn:Ha; cbn [negb].
    + destruct (String.eqb_spec other code) as [->|Hne]; [exact IH|].
      rewrite (has_code_other code other a Hne Ha). exact IH.
    + cbn [find]. destruct (String.eqb_spec other code) as [->|Hne].
      * rewrite Ha. exact IH.
      * destruct (has_code other a); [reflexivity|exact IH].
Qed.

Lemma filter_absent (code : string) (l : list employee) :
  find (has_code code) l = None ->
  filter (fun e => negb (has_code code e)) l = l.
Proof.
  induction l as [|a l IH]; cbn [filter find]; [reflexivity|].
  destruct (has_code code a); [discriminate|]. cbn [negb].
  intros H. rewrite (IH H). reflexivity.
Qed.

Lemma NoDup_keys_after_delete {K : Type} (key : employee -> K)
    (code : string) (rows : list employee) :
  NoDup (map key rows) ->
  NoDup (map key (filter (fun e => negb (has_code code e)) rows)).
Proof.
  induction rows as [|a rows IH]; cbn [map filter]; [trivial|].
  intros H. inversion H as [|x xs Hnin Hnd]; subst.
  destruct (negb (has_code code a)); [|exact (IH Hnd)].
  cbn [map]. constructor; [|exact (IH Hnd)].
  intros Hin. apply Hnin. apply in_map_iff in Hin.
  destruct Hin as (y & Hy & Hin). apply filter_In in Hin.
  apply in_map_iff. exists y. tauto.
Qed.

(** ** What [compute_pay] does to the tables *)


(** ** The constraints of the schema *)


Lemma fold_max_le (l : list Z) (b : Z) :
  0 <= b -> (forall x, In x l -> x <= b) -> fold_right Z.max 0 l <= b.
Proof.
  intros Hb. induction l as [|a l IH]; cbn [fold_right]; intros H; [lia|].
  assert (a <= b) by (apply H; left; reflexivity).
  assert (fold_right Z.max 0 l <= b) by (apply IH; intros x Hx; apply H;
    right; exact Hx).
  lia.
Qed.

Lemma next_employee_id_well_formed (d : database) :
  well_formed d -> next_employee_id d = employees_seq d + 1.
Proof.
  intros (_ & _ & Hs & He & _). unfold next_employee_id.
  assert (Hm : forall x, In x (map emp_id (employees (tables d))) ->
                         x <= employees_seq d).
  { intros x Hx. apply in_map_iff in Hx. destruct Hx as (e & <- & Hin).
    specialize (He e Hin). lia. }
  pose proof (fold_max_le _ _ Hs Hm). lia.
Qed.





Lemma delete_employee_well_formed (c : string) (d : database) :
  well_formed d -> well_formed (fst (delete_employee c d)).
Proof.
  intros (Hc & Hi & Hs & He & Hp & Hk & Hr).
  unfold delete_employee, well_formed.
  cbn [fst tables employees payslips employees_seq].
  split; [apply NoDup_keys_after_delete; exact Hc|].
  split; [apply NoDup_keys_after_delete; exact Hi|].
  split; [exact Hs|].
  split; [|split; [exact Hp|split; [exact Hk|exact Hr]]].
  intros e Hin. apply filter_In in Hin. apply He. tauto.
Qed.




Lemma sample_db_well_formed : well_formed sample_db.
Proof.
  unfold well_formed. cbn.
  repeat match goal with
         | |- _ /\ _ => split
         | |- NoDup _ => constructor
         | |- ~ _ => intros H; cbn in H; intuition discriminate
         end; try lia.
  - intros e H. intuition (subst; cbn; lia).
  - intros p H. intuition (subst; cbn; lia).
  - intros p H. intuition (subst; cbn; lia).
Qed.

(** X9. Adding an employee under a code that no row carries prints
    "Employee added."; afterwards the code fetches the new row, with the
    values given and the next key; every other code fetches what it
    fetched before; the new row is last in the table, the ledger is
    untouched and the counter stands at the new key. *)
Theorem add_employee_then_lookup (code name0 desig : string) (b h a x : dec)
    (d : database) :
  get_employee_by_code code (tables d) = (Ok None, tables d) ->
  let d' := fst (add_employee code name0 desig b h a x d) in
  let row := mkemployee (next_employee_id d) code name0 desig b h a x in
  snd (add_employee code name0 desig b h a x d) = ["Employee added."%string] /\
  get_employee_by_code code (tables d') = (Ok (Some row), tables d') /\
  (forall other, other <> code ->
     fst (get_employee_by_code other (tables d'))
     = fst (get_employee_by_code other (tables d))) /\
  employees (tables d') = (employees (tables d) ++ [row])%list /\
  payslips (tables d') = payslips (tables d) /\
  employees_seq d' = next_employee_id d.
Proof. exact (add_employee_fresh code name0 desig b h a x d). Qed.

(** X10. Adding an employee under a code that a row already carries
    changes nothing in the database, whatever the other values, and
    prints "Error: emp_code must be unique.". *)
Theorem add_employee_duplicate (code name0 desig : string) (b h a x : dec)
    (d : database) (e : employee) :
  get_employee_by_code code (tables d) = (Ok (Some e), tables d) ->
  add_employee code name0 desig b h a x d
  = (d, ["Error: emp_code must be unique."%string]).
Proof. exact (add_employee_duplicate_eq code name0 desig b h a x d e). Qed.

(** X11. In a database that meets the constraints of the schema,
    [get_employee_by_code] fetches a row exactly when it is a row of the
    table that carries the code: the row fetched is the only one. *)
Theorem get_employee_by_code_unique (code : string) (d : database)
    (e : employee) :
  well_formed d ->
  (get_employee_by_code code (tables d) = (Ok (Some e), tables d) <->
   In e (employees (tables d)) /\ emp_code e = code).
Proof.
  intros (Hc & _). rewrite get_employee_by_code_find. split.
  - intros [= H]. exact (find_has_code code _ e H).
  - intros [Hin Hcode]. f_equal. f_equal.
    revert Hc Hin. induction (employees (tables d)) as [|a l IH];
      cbn [map In find]; [contradiction|].
    intros Hnd Hin. inversion Hnd as [|y ys Hnin Hnd']; subst.
    destruct Hin as [->|Hin].
    + rewrite has_code_same. reflexivity.
    + destruct (has_code (emp_code e) a) eqn:Ha; [|exact (IH Hnd' Hin)].
      exfalso. apply Hnin. unfold has_code in Ha. apply String.eqb_eq in Ha.
      rewrite Ha. apply in_map. exact Hin.
Qed.


(** X13. An update for a code that no row carries changes nothing in the
    database, and still prints "Employee updated."; an update with no
    field changes nothing either and prints "No updates provided.",
    whether or not the code is known. *)
Theorem update_employee_no_effect (code : string) (k : employee_patch)
    (d : database) :
  (no_fields k = true ->
   update_employee code k d = (d, ["No updates provided."%string])) /\
  (no_fields k = false ->
   get_employee_by_code code (tables d) = (Ok None, tables d) ->
   update_employee code k d = (d, ["Employee updated."%string])).
Proof.
  unfold update_employee. split.
  - intros ->. reflexivity.
  - intros ->. rewrite get_employee_by_code_find. intros [= Hf].
    rewrite (map_patch_absent code k _ Hf).
    destruct d as [[es ps] s]. reflexivity.
Qed.

(** X14. After [delete_employee] the code fetches no row, so that a
    payslip for it is refused with "Employee not found" and nothing
    written; every other code fetches what it fetched before; the ledger
    keeps all its rows, those of the deleted employee included, and the
    counter keeps its value.  The message is the same whether or not a
    row was deleted. *)
Theorem delete_employee_then_lookup (code : string) (d : database)
    (month : option string) (clk : clock) :
  let d' := fst (delete_employee code d) in
  snd (delete_employee code d) = ["Employee deleted (if existed)."%string] /\
  get_employee_by_code code (tables d') = (Ok None, tables d') /\
  compute_pay code month clk (tables d')
  = (Raise (ValueError "Employee not found"), tables d') /\
  (forall other, other <> code ->
     fst (get_employee_by_code other (tables d'))
     = fst (get_employee_by_code other (tables d))) /\
  payslips (tables d') = payslips (tables d) /\
  employees_seq d' = employees_seq d.
Proof.
  cbv zeta. unfold delete_employee.
  cbn [fst snd tables employees payslips employees_seq].
  assert (Hf : find (has_code code)
                 (filter (fun e => negb (has_code code e))
                    (employees (tables d))) = None).
  { rewrite find_filter_other, String.eqb_refl. reflexivity. }
  split; [reflexivity|]. split; [|split; [|split; [|split; reflexivity]]].
  - rewrite get_employee_by_code_find. cbn [employees]. rewrite Hf.
    reflexivity.
  - unfold compute_pay, mbind. rewrite get_employee_by_code_find.
    cbn [employees]. rewrite Hf. reflexivity.
  - intros other Hne. rewrite !get_employee_by_code_find. cbn [fst employees].
    rewrite find_filter_other. apply String.eqb_neq in Hne. rewrite Hne.
    reflexivity.
Qed.

(** X15. Deleting a code that no row carries changes nothing in the
    database; and adding an employee and deleting the code again gives
    back the two tables as they were: only the counter has moved on. *)
Theorem add_then_delete (code name0 desig : string) (b h a x : dec)
    (d : database) :
  get_employee_by_code code (tables d) = (Ok None, tables d) ->
  fst (delete_employee code d) = d /\
  tables (fst (delete_employee code
                 (fst (add_employee code name0 desig b h a x d))))
  = tables d /\
  employees_seq (fst (delete_employee code
                        (fst (add_employee code name0 desig b h a x d))))
  = next_employee_id d.
Proof.
  intros H. pose proof H as Hf. rewrite get_employee_by_code_find in Hf.
  injection Hf as Hf.
  destruct (add_employee_fresh code name0 desig b h a x d H)
    as (_ & _ & _ & He & Hp & Hs).
  unfold delete_employee at 1 2 3. cbn [fst tables employees_seq].
  split; [|split].
  - rewrite (filter_absent code _ Hf). destruct d as [[es ps] s].
    reflexivity.
  - rewrite He, Hp, filter_app, (filter_absent code _ Hf).
    cbn [filter]. unfold has_code at 1. cbn [emp_code].
    rewrite String.eqb_refl. cbn [negb]. rewrite app_nil_r.
    destruct (tables d). reflexivity.
  - cbn [employees_seq]. exact Hs.
Qed.

(** X16. Keys are not given out twice: in a database that meets the
    constraints of the schema, the key of a newly added employee is the
    counter plus one, above the key of every employee in the table and
    above every employee key a payslip of the ledger refers to; the new
    employee has no payslip, also when employees with payslips were
    deleted before. *)
Theorem add_employee_key_fresh (code name0 desig : string) (b h a x : dec)
    (d : database) :
  well_formed d ->
  get_employee_by_code code (tables d) = (Ok None, tables d) ->
  let d' := fst (add_employee code name0 desig b h a x d) in
  exists row,
    get_employee_by_code code (tables d') = (Ok (Some row), tables d') /\
    emp_id row = employees_seq d + 1 /\
    (forall e, In e (employees (tables d)) -> emp_id e < emp_id row) /\
    (forall p, In p (payslips (tables d')) -> ps_emp_id p < emp_id row).
Proof.
  intros Hwf H.
  destruct (add_employee_fresh code name0 desig b h a x d H)
    as (_ & Hg & _ & _ & Hp & _).
  cbv zeta. eexists. split; [exact Hg|]. cbn [emp_id].
  pose proof (next_employee_id_well_formed d Hwf) as Hn.
  destruct Hwf as (_ & _ & _ & He & Hq & _).
  split; [exact Hn|]. split.
  - intros e Hin. specialize (He e Hin). lia.
  - intros p Hin. rewrite Hp in Hin. specialize (Hq p Hin). lia.
Qed.


Lemma add_employee_then_lookup_witness :
  snd (add_employee "E006" "Farah" "Intern" (mkdec 120000 (-1))
         (mkdec 200 (-1)) (mkdec 0 (-1)) (mkdec 0 (-1)) sample_db)
  = ["Employee added."%string] /\
  fst (get_employee_by_code "E006"
         (tables (fst (add_employee "E006" "Farah" "Intern"
                         (mkdec 120000 (-1)) (mkdec 200 (-1)) (mkdec 0 (-1))
                         (mkdec 0 (-1)) sample_db))))
  = Ok (Some (mkemployee 6 "E006" "Farah" "Intern" (mkdec 120000 (-1))
                (mkdec 200 (-1)) (mkdec 0 (-1)) (mkdec 0 (-1)))).
Proof.
  destruct (add_employee_then_lookup "E006" "Farah" "Intern"
              (mkdec 120000 (-1)) (mkdec 200 (-1)) (mkdec 0 (-1))
              (mkdec 0 (-1)) sample_db)
    as (Hm & Hg & _); [reflexivity|].
  split; [exact Hm|]. rewrite Hg. reflexivity.
Defined.

Lemma add_employee_duplicate_witness :
  add_employee "E003" "Farah" "Intern" (mkdec 120000 (-1))
    (mkdec 200 (-1)) (mkdec 0 (-1)) (mkdec 0 (-1)) sample_db
  = (sample_db, ["Error: emp_code must be unique."%string]).
Proof.
  apply (add_employee_duplicate "E003" "Farah" "Intern" (mkdec 120000 (-1))
           (mkdec 200 (-1)) (mkdec 0 (-1)) (mkdec 0 (-1)) sample_db emp_tie).
  reflexivity.
Defined.

Lemma get_employee_by_code_unique_witness :
  get_employee_by_code "E004" (tables sample_db)
  = (Ok (Some emp_tax_tie), tables sample_db).
Proof.
  apply (get_employee_by_code_unique "E004" sample_db emp_tax_tie
           sample_db_well_formed).
  split; [cbn; tauto|reflexivity].
Defined.


Lemma update_employee_no_effect_witness :
  update_employee "E001"
    (mkemployee_patch None None None None None None) sample_db
  = (sample_db, ["No updates provided."%string]) /\
  update_employee "E999" rename_patch sample_db
  = (sample_db, ["Employee updated."%string]).
Proof.
  split.
  - apply (update_employee_no_effect "E001"
             (mkemployee_patch None None None None None None) sample_db).
    reflexivity.
  - apply (update_employee_no_effect "E999" rename_patch sample_db);
      reflexivity.
Defined.

Lemma delete_employee_then_lookup_witness :
  fst (get_employee_by_code "E002"
         (tables (fst (delete_employee "E001" sample_db))))
  = Ok (Some emp_zero).
Proof.
  destruct (delete_employee_then_lookup "E001" sample_db None sample_clock)
    as (_ & _ & _ & Ho & _).
  rewrite (Ho "E002"%string); [reflexivity|discriminate].
Defined.

Lemma add_then_delete_witness :
  tables (fst (delete_employee "E006"
                 (fst (add_employee "E006" "Farah" "Intern"
                         (mkdec 120000 (-1)) (mkdec 200 (-1)) (mkdec 0 (-1))
                         (mkdec 0 (-1)) sample_db))))
  = tables sample_db.
Proof.
  apply (add_then_delete "E006" "Farah" "Intern" (mkdec 120000 (-1))
           (mkdec 200 (-1)) (mkdec 0 (-1)) (mkdec 0 (-1)) sample_db).
  reflexivity.
Defined.

Lemma add_employee_key_fresh_witness :
  exists row,
    get_employee_by_code "E001"
      (tables (fst (add_employee "E001" "Asha" "Engineer"
                      (mkdec 300000 (-1)) (mkdec 200 (-1)) (mkdec 0 (-1))
                      (mkdec 0 (-1))
                      (fst (delete_employee "E001" sample_db)))))
    = (Ok (Some row),
       tables (fst (add_employee "E001" "Asha" "Engineer"
                      (mkdec 300000 (-1)) (mkdec 200 (-1)) (mkdec 0 (-1))
                      (mkdec 0 (-1))
                      (fst (delete_employee "E001" sample_db))))) /\
    emp_id row = 6.
Proof.
  destruct (add_employee_key_fresh "E001" "Asha" "Engineer"
              (mkdec 300000 (-1)) (mkdec 200 (-1)) (mkdec 0 (-1))
              (mkdec 0 (-1)) (fst (delete_employee "E001" sample_db)))
    as (row & Hg & Hid & _).
  - apply delete_employee_well_formed. exact sample_db_well_formed.
  - reflexivity.
  - exists row. split; [exact Hg|exact Hid].
Defined.

